(** * Bike Scenario Planner: a shallow embedding of [bike_scenarios.py]

    The development follows the source file top-down: the interpreter
    services the program relies on (strings, floats, ordered dictionaries,
    sorting, the line-oriented input stream), then the program's functions
    under their own names, then the properties of the specification. *)

From Stdlib Require Import ZArith NArith Ascii String List Bool Lia.
From Stdlib Require Import PrimFloat SpecFloat FloatOps.
From stdpp Require Import gmap strings list sorting pretty.

Local Open Scope string_scope.

(** ** Exceptions and results

    The program never catches an exception on the paths modelled here, so a
    raised exception ends the run. *)

Inductive exn := EOFError | ValueError | OverflowError | IndexError | KeyError.

Inductive res (A : Type) :=
| Ok (a : A)
| Raise (e : exn).
Arguments Ok {A} a.
Arguments Raise {A} e.

Definition bind {A B} (m : res A) (k : A -> res B) : res B :=
  match m with
  | Ok a => k a
  | Raise e => Raise e
  end.

Notation "x <- m ;; k" := (bind m (fun x => k))
  (at level 100, m at next level, right associativity).

(** ** Strings

    A Python [str] is modelled by a Rocq [string] whose characters are the
    code points below 256. *)

Module Str.

Definition code (c : ascii) : N := N_of_ascii c.

Definition between (lo hi : N) (c : ascii) : bool :=
  ((lo <=? code c) && (code c <=? hi))%N.

(** [str.lower] on one code point: A-Z and the upper-case letters of
    the Latin-1 block (all of 0xC0-0xDE but the multiplication sign)
    move up by 32. *)
Definition lower_char (c : ascii) : ascii :=
  if between 65 90 c || between 192 214 c || between 216 222 c
  then ascii_of_N (code c + 32)
  else c.

Fixpoint lower (s : string) : string :=
  match s with
  | EmptyString => EmptyString
  | String c r => String (lower_char c) (lower r)
  end.

(** [str.isspace] on one code point. *)
Definition isspace (c : ascii) : bool :=
  between 9 13 c || between 28 32 c || (code c =? 133)%N || (code c =? 160)%N.

(** The strings stripped of the leading, or trailing, characters that
    satisfy [p]. *)
Fixpoint lstrip_by (p : ascii -> bool) (s : string) : string :=
  match s with
  | EmptyString => EmptyString
  | String c r => if p c then lstrip_by p r else s
  end.

Fixpoint rstrip_by (p : ascii -> bool) (s : string) : string :=
  match s with
  | EmptyString => EmptyString
  | String c r =>
      match rstrip_by p r with
      | EmptyString => if p c then EmptyString else String c EmptyString
      | r' => String c r'
      end
  end.

(** [s.strip()] *)
Definition strip (s : string) : string := rstrip_by isspace (lstrip_by isspace s).

(** [q in s] *)
Fixpoint contains (q s : string) : bool :=
  String.prefix q s ||
  match s with
  | EmptyString => false
  | String _ r => contains q r
  end.

Definition is_ascii_digit (c : ascii) : bool := between 48 57 c.

(** The characters [str.isdigit] accepts: 0-9 and the superscripts
    two, three and one of the Latin-1 block. *)
Definition isdigit_char (c : ascii) : bool :=
  is_ascii_digit c || (code c =? 178)%N || (code c =? 179)%N || (code c =? 185)%N.

Fixpoint all_chars (p : ascii -> bool) (s : string) : bool :=
  match s with
  | EmptyString => true
  | String c r => p c && all_chars p r
  end.

(** [s.isdigit()]: false on the empty string. *)
Definition isdigit (s : string) : bool :=
  match s with
  | EmptyString => false
  | _ => all_chars isdigit_char s
  end.

Definition digit_val (c : ascii) : N := (code c - 48)%N.

Fixpoint digits_value (acc : N) (s : string) : N :=
  match s with
  | EmptyString => acc
  | String c r => digits_value (10 * acc + digit_val c) r
  end.

(** [int(s)] for an [s] that passed [isdigit]: the superscript digits
    are not decimal digits and make [int] raise. *)
Definition int_of_digits (s : string) : res Z :=
  if all_chars is_ascii_digit s then Ok (Z.of_N (digits_value 0 s))
  else Raise ValueError.

(** [bool(s)] of a string: non-empty. *)
Definition truthy (s : string) : bool :=
  match s with
  | EmptyString => false
  | _ => true
  end.

End Str.

(** ** Floats

    Python's [float] is IEEE-754 binary64, which is what Rocq's primitive
    floats are. *)

Module Flt.

Local Open Scope Z_scope.

(** The correctly rounded (to nearest, ties to even) float of
    [m * 2^e]. *)
Definition of_scaled (m e : Z) (neg : bool) : float :=
  SF2Prim (binary_normalize prec emax (if neg then - m else m) e neg).

(** The correctly rounded float of [m * 10^e10] for [m >= 0]. For a
    negative exponent the quotient is taken with at least 55 significant
    bits and one more bit recording a non-zero remainder, so that the
    final rounding sees the exact position of the value. *)
Definition of_decimal (neg : bool) (m : N) (e10 : Z) : float :=
  match e10 with
  | Zneg k =>
      let d := 10 ^ Zpos k in
      let s := 55 + Z.log2_up d in
      let n := Z.of_N m * 2 ^ s in
      let q := n / d in
      let sticky := if (n mod d =? 0) then 0 else 1 in
      of_scaled (2 * q + sticky) (- (s + 1)) neg
  | _ => of_scaled (Z.of_N m * 10 ^ e10) 0 neg
  end.

(** *** [float(s)] on a string

    The grammar of the language reference:
    [[sign] (digitpart ["." [digitpart]] | "." digitpart) [exponent]],
    [[sign] ("inf" | "infinity" | "nan")] in any case, surrounded by
    optional white space; a [digitpart] is digits with single
    underscores between them. *)

Fixpoint digits_loop (acc : N) (cnt : nat) (s : string) : N * nat * string :=
  match s with
  | String c r =>
      if Str.is_ascii_digit c
      then digits_loop (10 * acc + Str.digit_val c)%N (S cnt) r
      else if Ascii.eqb c "_"
      then match r with
           | String d r' =>
               if Str.is_ascii_digit d
               then digits_loop (10 * acc + Str.digit_val d)%N (S cnt) r'
               else (acc, cnt, s)
           | EmptyString => (acc, cnt, s)
           end
      else (acc, cnt, s)
  | EmptyString => (acc, cnt, s)
  end.

(** A [digitpart] continuing the mantissa [acc]: at least one digit. *)
Definition digitpart (acc : N) (s : string) : option (N * nat * string) :=
  match s with
  | String c r =>
      if Str.is_ascii_digit c
      then Some (digits_loop (10 * acc + Str.digit_val c)%N 1 r)
      else None
  | EmptyString => None
  end.

Definition sign (s : string) : bool * string :=
  match s with
  | String "-" r => (true, r)
  | String "+" r => (false, r)
  | _ => (false, s)
  end.

(** Mantissa and the number of digits after the point. *)
Definition number (s : string) : option (N * nat * string) :=
  match digitpart 0 s with
  | Some (m, _, rest) =>
      match rest with
      | String "." r2 =>
          match digitpart m r2 with
          | Some (m', k, rest') => Some (m', k, rest')
          | None => Some (m, O, r2)
          end
      | _ => Some (m, O, rest)
      end
  | None =>
      match s with
      | String "." r2 => digitpart 0 r2
      | _ => None
      end
  end.

Definition exponent (s : string) : option Z :=
  match s with
  | EmptyString => Some 0
  | String c r =>
      if Ascii.eqb c "e" || Ascii.eqb c "E"
      then let '(neg, r1) := sign r in
           match digitpart 0 r1 with
           | Some (e, _, EmptyString) => Some (if neg then - Z.of_N e else Z.of_N e)
           | _ => None
           end
      else None
  end.

(** The white space [float] accepts around the number: the ASCII white
    space, and the two spaces of the Latin-1 block (the four separators
    0x1C-0x1F, which [str.strip] removes, are not). *)
Definition float_space (c : ascii) : bool :=
  Str.between 9 13 c || (Str.code c =? 32)%N || (Str.code c =? 133)%N
  || (Str.code c =? 160)%N.

Definition of_str (s : string) : res float :=
  let '(neg, body) := sign (Str.rstrip_by float_space (Str.lstrip_by float_space s)) in
  let word := Str.lower body in
  if String.eqb word "inf" || String.eqb word "infinity"
  then Ok (if neg then neg_infinity else infinity)
  else if String.eqb word "nan" then Ok nan
  else match number body with
       | Some (m, k, rest) =>
           match exponent rest with
           | Some e => Ok (of_decimal neg m (e - Z.of_nat k))
           | None => Raise ValueError
           end
       | None => Raise ValueError
       end.

(** *** [int(x)] on a float: truncation toward zero; it raises on the
    infinities and on NaN. *)
Definition to_int (x : float) : res Z :=
  match Prim2SF x with
  | S754_zero _ => Ok 0
  | S754_finite s m e =>
      let a := match e with
               | Z0 => Zpos m
               | Zpos p => Z.shiftl (Zpos m) (Zpos p)
               | Zneg p => Z.shiftr (Zpos m) (Zpos p)
               end in
      Ok (if s then - a else a)
  | S754_infinity _ => Raise OverflowError
  | S754_nan => Raise ValueError
  end.

(** The integer nearest to [m * 2^e], ties to even, for [m > 0]. *)
Definition round_half_even (m : positive) (e : Z) : Z :=
  match e with
  | Z0 => Zpos m
  | Zpos p => Z.shiftl (Zpos m) (Zpos p)
  | Zneg p =>
      let d := 2 ^ Zpos p in
      let q := Zpos m / d in
      let r := Zpos m mod d in
      match 2 * r ?= d with
      | Lt => q
      | Gt => q + 1
      | Eq => if Z.even q then q else q + 1
      end
  end.

(** *** [format(x, ".0f")] *)
Definition fmt0 (x : float) : string :=
  match Prim2SF x with
  | S754_zero s => if s then "-0" else "0"
  | S754_finite s m e =>
      (if s then "-" else "") ++ pretty (round_half_even m e)
  | S754_infinity s => if s then "-inf" else "inf"
  | S754_nan => "nan"
  end.

(** [sum(xs)]: the items are added from left to right, starting from
    zero. (No property below depends on how an addition rounds: equal
    totals are sums of the same items in the same order.) *)
Definition sum (xs : list float) : float := fold_left PrimFloat.add xs 0%float.

Definition is_finite (x : float) : bool :=
  match Prim2SF x with
  | S754_zero _ | S754_finite _ _ _ => true
  | _ => false
  end.

End Flt.

(** ** Sorting

    [list.sort] and [sorted] are stable and compare elements with [<]
    only. They are modelled by the stable insertion sort: an element is
    placed before the first element of the sorted rest that is not
    smaller than it, hence before every later element with an equal key. *)

Section Sorting.
Context {A : Type} (lt : A -> A -> bool).

Fixpoint sort_insert (x : A) (l : list A) : list A :=
  match l with
  | [] => [x]
  | y :: r => if lt y x then y :: sort_insert x r else x :: y :: r
  end.

Fixpoint py_sort (l : list A) : list A :=
  match l with
  | [] => []
  | x :: r => sort_insert x (py_sort r)
  end.
End Sorting.

(** ** Dictionaries

    A Python [dict] keeps its keys in insertion order and the program
    iterates over them, so a dictionary with string keys is an association
    list with distinct keys, in insertion order. *)

Section Dict.
Context {V : Type}.

Definition dict := list (string * V).

(** [d.get(k)] *)
Fixpoint dict_get (k : string) (d : dict) : option V :=
  match d with
  | [] => None
  | (k', v) :: r => if String.eqb k k' then Some v else dict_get k r
  end.

(** [d[k] = v]: an existing key keeps its position, a new key goes last. *)
Fixpoint dict_set (k : string) (v : V) (d : dict) : dict :=
  match d with
  | [] => [(k, v)]
  | (k', v') :: r =>
      if String.eqb k k' then (k', v) :: r else (k', v') :: dict_set k v r
  end.

(** [d[k]] *)
Definition dict_item (k : string) (d : dict) : res V :=
  match dict_get k d with
  | Some v => Ok v
  | None => Raise KeyError
  end.

(** [d.keys()], [d.values()] *)
Definition dict_keys (d : dict) : list string := map fst d.
Definition dict_values (d : dict) : list V := map snd d.
(** A loop that assigns [f k] to the key [k], for the keys of [ks] in
    turn. *)
Definition assign_all (f : string -> V) (ks : list string) (d : dict) : dict :=
  fold_left (fun d k => dict_set k (f k) d) ks d.
End Dict.
Arguments dict V : clear implicits.

(** ** The data model *)

(** A part as [load_parts] returns it: the row of [parts.csv] with the two
    numeric fields converted. The columns are those [add_part_interactive]
    writes; a column a short line does not reach holds [None]. *)
Record PartRecord := {
  category : string;
  brand : string;
  model : string;
  variant : option string;
  weight_g : float;
  price_sgd : float;
  notes : option string;
  source : option string;
  link : option string
}.

(** A row as [csv.DictReader] yields it, before the conversion. *)
Record CsvRow := {
  row_category : string;
  row_brand : string;
  row_model : string;
  row_variant : option string;
  row_weight_g : option string;
  row_price_sgd : option string;
  row_notes : option string;
  row_source : option string;
  row_link : option string
}.

(** [float(x or 0)] for a field [x] that is a string or [None]. *)
Definition float_or_zero (x : option string) : res float :=
  match x with
  | Some s => if Str.truthy s then Flt.of_str s else Ok 0%float
  | None => Ok 0%float
  end.

Definition load_row (row : CsvRow) : res PartRecord :=
  w <- float_or_zero (row_weight_g row) ;;
  p <- float_or_zero (row_price_sgd row) ;;
  Ok {| category := row_category row; brand := row_brand row;
        model := row_model row; variant := row_variant row;
        weight_g := w; price_sgd := p;
        notes := row_notes row; source := row_source row;
        link := row_link row |}.

(** [load_parts], from the rows the reader yields. *)
Fixpoint load_parts (rows : list CsvRow) : res (list PartRecord) :=
  match rows with
  | [] => Ok []
  | row :: rest =>
      p <- load_row row ;;
      ps <- load_parts rest ;;
      Ok (p :: ps)
  end.

(** The sort key [(x["brand"], x["model"])] and the tuple comparison [<]:
    the brands decide unless they are equal. *)
Definition sort_key (p : PartRecord) : string * string := (brand p, model p).

Definition key_lt (a b : string * string) : bool :=
  match String.compare (fst a) (fst b) with
  | Lt => true
  | Eq => String.ltb (snd a) (snd b)
  | Gt => false
  end.

Definition part_lt (a b : PartRecord) : bool := key_lt (sort_key a) (sort_key b).

(** [cats.setdefault(c, []).append(p)] *)
Definition setdefault_append (cats : dict (list PartRecord)) (p : PartRecord)
  : dict (list PartRecord) :=
  let cur := match dict_get (category p) cats with
             | Some l => l
             | None => []
             end in
  dict_set (category p) (cur ++ [p])%list cats.

Definition group_by_category (parts : list PartRecord) : dict (list PartRecord) :=
  let cats := fold_left setdefault_append parts [] in
  map (fun kv => (fst kv, py_sort part_lt (snd kv))) cats.

(** [sorted(cats.keys())] *)
Definition sorted_categories (cats : dict (list PartRecord)) : list string :=
  py_sort String.ltb (dict_keys cats).

(** ** The interactive chooser

    [input()] takes the next line of the standard input (without its line
    end) and raises [EOFError] when there is none. The remaining lines are
    threaded through the functions that read. What the program prints is not
    modelled. *)

Definition Input := list string.

(** What [choose_from_list] returns: [None], the string ["SEARCH"], or an
    option. *)
Inductive choice :=
| NoChoice
| SEARCH
| Chosen (o : PartRecord).

(** [options[idx-1]] after the test [1 <= idx <= len(options)]. *)
Definition pick_index (options : list PartRecord) (idx : Z) : option (res PartRecord) :=
  if ((1 <=? idx) && (idx <=? Z.of_nat (length options)))%Z
  then Some (match nth_error options (Z.to_nat (idx - 1)) with
             | Some o => Ok o
             | None => Raise IndexError
             end)
  else None.

Fixpoint choose_from_list (options : list PartRecord) (inp : Input)
  : res (choice * Input) :=
  match inp with
  | [] => Raise EOFError
  | line :: rest =>
      let sel := Str.strip line in
      if String.eqb sel "" then Ok (NoChoice, rest)
      else if String.eqb (Str.lower sel) "s" then Ok (SEARCH, rest)
      else if Str.isdigit sel then
        idx <- Str.int_of_digits sel ;;
        match pick_index options idx with
        | Some r => o <- r ;; Ok (Chosen o, rest)
        | None => choose_from_list options rest
        end
      else choose_from_list options rest
  end.

(** [o.get("variant") or ""] *)
Definition variant_or_empty (o : PartRecord) : string :=
  match variant o with
  | Some v => v
  | None => ""
  end.

(** The text a search looks into:
    [(o["brand"]+" "+o["model"]+" "+(o.get("variant") or "")).lower()] *)
Definition haystack (o : PartRecord) : string :=
  Str.lower (brand o ++ " " ++ model o ++ " " ++ variant_or_empty o).

(** The list [filtered] of [search_and_choose], from the line read. *)
Definition search (line : string) (options : list PartRecord) : list PartRecord :=
  let q := Str.lower (Str.strip line) in
  List.filter (fun o => Str.contains q (haystack o)) options.

(** The second loop of [search_and_choose]. *)
Fixpoint pick_from_results (filtered : list PartRecord) (inp : Input)
  : res (option PartRecord * Input) :=
  match inp with
  | [] => Raise EOFError
  | line :: rest =>
      let sel := Str.strip line in
      if String.eqb sel "" then Ok (None, rest)
      else if Str.isdigit sel then
        idx <- Str.int_of_digits sel ;;
        match pick_index filtered idx with
        | Some r => o <- r ;; Ok (Some o, rest)
        | None => pick_from_results filtered rest
        end
      else pick_from_results filtered rest
  end.

Definition search_and_choose (options : list PartRecord) (inp : Input)
  : res (option PartRecord * Input) :=
  match inp with
  | [] => Raise EOFError
  | line :: rest =>
      match search line options with
      | [] => Ok (None, rest)
      | filtered => pick_from_results filtered rest
      end
  end.

(** The loop of [pick_for_category]. Every round reads at least one line,
    so [fuel] rounds are enough for an input of fewer than [fuel] lines;
    [None] is the round that never comes. *)
Fixpoint pick_loop (fuel : nat) (options : list PartRecord)
    (preselect : option PartRecord) (inp : Input)
  : option (res (option PartRecord * Input)) :=
  match fuel with
  | O => None
  | S fuel' =>
      match choose_from_list options inp with
      | Raise e => Some (Raise e)
      | Ok (SEARCH, rest) =>
          match search_and_choose options rest with
          | Raise e => Some (Raise e)
          | Ok (None, rest') => pick_loop fuel' options preselect rest'
          | Ok (Some o, rest') => Some (Ok (Some o, rest'))
          end
      | Ok (NoChoice, rest) => Some (Ok (preselect, rest))
      | Ok (Chosen o, rest) => Some (Ok (Some o, rest))
      end
  end.

Definition pick_for_category (cat_name : string) (options : list PartRecord)
    (preselect : option PartRecord) (inp : Input)
  : res (option PartRecord * Input) :=
  match pick_loop (S (length inp)) options preselect inp with
  | Some r => r
  | None => Raise EOFError
  end.

(** ** Totals *)

Definition Picks := dict (option PartRecord).

(** [picks.values()] filtered by [if p]. *)
Fixpoint selected (picks : Picks) : list PartRecord :=
  match picks with
  | [] => []
  | (_, Some p) :: rest => p :: selected rest
  | (_, None) :: rest => selected rest
  end.

Definition summarize (picks : Picks) : float * float :=
  (Flt.sum (map weight_g (selected picks)), Flt.sum (map price_sgd (selected picks))).

(** ** The scenario store *)

(** The JSON document of a scenario. *)
Record Scenario := {
  name : string;
  created : string;
  picks : dict PartRecord;
  total_weight_g : float;
  total_price_sgd : float
}.

(** A value handed to [csv.writer.writerow]. *)
Inductive cell :=
| CStr (s : string)
| CNone
| CInt (z : Z)
| CFloat (x : float).

(** The files the program writes, by path below [BASE]: a scenario as the
    document [json.dump] writes and [json.load] reads back, a Markdown
    report as the lines joined on writing, a CSV report as the rows handed
    to the writer. *)
Inductive file :=
| JsonFile (data : Scenario)
| MdFile (lines : list string)
| CsvFile (rows : list (list cell)).

Abbreviation Store := (gmap string file).

Definition SCEN_DIR : string := "scenarios".
Definition REPORT_DIR : string := "reports".

(** [os.path.join(dir, f"{name}{ext}")] *)
Definition path_join (dir name ext : string) : string := dir ++ "/" ++ name ++ ext.

(** [{k: v for k, v in picks.items() if v}] *)
Fixpoint nonempty_items (picks : Picks) : dict PartRecord :=
  match picks with
  | [] => []
  | (k, Some v) :: rest => (k, v) :: nonempty_items rest
  | (_, None) :: rest => nonempty_items rest
  end.

(** [str(v.get('variant',''))] as the f-string prints it. *)
Definition variant_text (v : PartRecord) : string :=
  match variant v with
  | Some s => s
  | None => "None"
  end.

Definition md_cells (cat : string) (v : PartRecord) : list string :=
  [cat; brand v; model v; variant_text v; Flt.fmt0 (weight_g v); Flt.fmt0 (price_sgd v)].

Definition md_row (cat : string) (v : PartRecord) : string :=
  "| " ++ String.concat " | " (md_cells cat v) ++ " |".

Definition md_header (name : string) : list string :=
  ["# Scenario: " ++ name; "";
   "| Category | Brand | Model | Variant | Weight (g) | Price (SGD) |";
   "|---|---|---|---|---:|---:|"].

Definition newline : string := String (ascii_of_N 10) EmptyString.

Definition md_totals (data : Scenario) : string :=
  newline ++ "**Totals:** " ++ Flt.fmt0 (total_weight_g data) ++ " g,  $"
          ++ Flt.fmt0 (total_price_sgd data) ++ " SGD" ++ newline.

Definition md_report (data : Scenario) : list string :=
  (md_header (name data)
     ++ map (fun kv => md_row (fst kv) (snd kv)) (picks data)
     ++ [md_totals data])%list.

Definition csv_header : list cell :=
  [CStr "category"; CStr "brand"; CStr "model"; CStr "variant";
   CStr "weight_g"; CStr "price_sgd"].

Definition variant_cell (v : PartRecord) : cell :=
  match variant v with
  | Some s => CStr s
  | None => CNone
  end.

(** The list handed to [writerow] for one pick; [int] may raise. *)
Definition csv_row (cat : string) (v : PartRecord) : res (list cell) :=
  w <- Flt.to_int (weight_g v) ;;
  Ok [CStr cat; CStr (brand v); CStr (model v); variant_cell v; CInt w;
      CFloat (price_sgd v)].

(** The rows written before the loop ends or raises. *)
Fixpoint csv_rows (items : dict PartRecord) : list (list cell) * option exn :=
  match items with
  | [] => ([], None)
  | (cat, v) :: rest =>
      match csv_row cat v with
      | Raise e => ([], Some e)
      | Ok row => let '(rows, err) := csv_rows rest in (row :: rows, err)
      end
  end.

(** [save_scenario]; [now] is the time stamp
    [datetime.datetime.now().isoformat(timespec="seconds")]. The three
    files are written in turn, each replacing what its path held. *)
Definition save_scenario (name : string) (picks : Picks) (totals : float * float)
    (now : string) (st : Store) : Store * res string :=
  let items := nonempty_items picks in
  let data := {| name := name; created := now; picks := items;
                 total_weight_g := fst totals; total_price_sgd := snd totals |} in
  let path := path_join SCEN_DIR name ".json" in
  let st1 := <[path := JsonFile data]> st in
  let st2 := <[path_join REPORT_DIR name ".md" := MdFile (md_report data)]> st1 in
  let '(rows, err) := csv_rows items in
  let st3 := <[path_join REPORT_DIR name ".csv" := CsvFile (csv_header :: rows)]> st2 in
  match err with
  | Some e => (st3, Raise e)
  | None => (st3, Ok path)
  end.

(** [json.load] of the scenario file of [name]. *)
Definition load_scenario (name : string) (st : Store) : option Scenario :=
  match st !! path_join SCEN_DIR name ".json" with
  | Some (JsonFile data) => Some data
  | _ => None
  end.

(** ** Mapping-driven selection *)

(** The inner loop of [apply_scenario_mapping]: the first option whose
    model, or brand and model, is [want] up to case. *)
Fixpoint resolve (want : string) (options : list PartRecord) : option PartRecord :=
  match options with
  | [] => None
  | o :: rest =>
      if String.eqb (Str.lower (model o)) (Str.lower want)
         || String.eqb (Str.lower (brand o ++ " " ++ model o)) (Str.lower want)
      then Some o
      else resolve want rest
  end.

(** One round of the loop over the categories. *)
Definition mapping_step (mapping : gmap string string) (cats : dict (list PartRecord))
    (acc : res Picks) (cat : string) : res Picks :=
  picks <- acc ;;
  match mapping !! cat with
  | Some want =>
      if Str.truthy want
      then options <- dict_item cat cats ;;
           Ok (dict_set cat (resolve want options) picks)
      else Ok (dict_set cat None picks)
  | None => Ok (dict_set cat None picks)
  end.

Definition apply_scenario_mapping (mapping : gmap string string)
    (cats : dict (list PartRecord)) : res Picks :=
  fold_left (mapping_step mapping cats) (sorted_categories cats) (Ok []).

(** ** The interactive session and [main] *)

(** The scan of [main] for the option a previous pick names: same brand
    and same model. *)
Definition preselect_hit (prefer : PartRecord) (list_opts : list PartRecord)
  : option PartRecord :=
  List.find (fun o => String.eqb (brand o) (brand prefer)
                      && String.eqb (model o) (model prefer)) list_opts.

(** [preselect_objs], from the picks of the last scenario. *)
Definition preselect_objs (preselect : dict PartRecord) (cats : dict (list PartRecord))
  : Picks :=
  match preselect with
  | [] => []
  | _ =>
      fold_left (fun acc kv =>
                   dict_set (fst kv)
                     (match dict_get (fst kv) preselect with
                      | Some prefer => preselect_hit prefer (snd kv)
                      | None => None
                      end) acc) cats []
  end.

(** [preselect_objs.get(cat)] *)
Definition preselect_for (objs : Picks) (cat : string) : option PartRecord :=
  match dict_get cat objs with
  | Some (Some o) => Some o
  | _ => None
  end.

(** [{k: None for k in sorted(cats.keys())}] *)
Definition empty_picks (cats : dict (list PartRecord)) : Picks :=
  fold_left (fun d k => dict_set k None d) (sorted_categories cats) [].

(** The loop of [main] over the categories, [todo] being those left. *)
Fixpoint session_loop (cats : dict (list PartRecord)) (objs : Picks)
    (todo : list string) (picks : Picks) (inp : Input) : res (Picks * Input) :=
  match todo with
  | [] => Ok (picks, inp)
  | cat :: todo' =>
      options <- dict_item cat cats ;;
      r <- pick_for_category cat options (preselect_for objs cat) inp ;;
      session_loop cats objs todo' (dict_set cat (fst r) picks) (snd r)
  end.

Definition interactive_session (cats : dict (list PartRecord)) (objs : Picks)
    (inp : Input) : res (Picks * Input) :=
  session_loop cats objs (sorted_categories cats) (empty_picks cats) inp.

(** The command line after the test for [--add-part]: the base name and the
    mapping of the [--scenario] file if one is given, the flags, and the
    value of [--name]. *)
Record Args := {
  arg_scenario : option (string * gmap string string);
  flag_save : bool;
  flag_clone_last : bool;
  flag_auto_save : bool;
  arg_name : option string
}.

(** How a run of [main] ends. *)
Inductive outcome :=
| NoPartsFound
| ScenarioFromFile (name : string) (picks : Picks) (totals : float * float)
| ScenarioChosen (name : string) (picks : Picks) (totals : float * float)
    (saved : option string).

(** [values.get("--name") or input(...).strip() or "Scenario"] *)
Definition scenario_name (args : Args) (inp : Input) : res (string * Input) :=
  match arg_name args with
  | Some (String c r) => Ok (String c r, inp)
  | _ =>
      match inp with
      | [] => Raise EOFError
      | line :: rest =>
          match Str.strip line with
          | EmptyString => Ok ("Scenario", rest)
          | nm => Ok (nm, rest)
          end
      end
  end.

(** [auto_save or input(...).strip().lower() == 'y'] *)
Definition wants_save (args : Args) (inp : Input) : res bool :=
  if flag_auto_save args then Ok true
  else match inp with
       | [] => Raise EOFError
       | line :: _ => Ok (String.eqb (Str.lower (Str.strip line)) "y")
       end.

(** [main] from the loading of the parts on. [rows] is what the reader
    yields for [parts.csv], [last] what [load_last_scenario] returns. *)
Definition main (args : Args) (rows : list CsvRow) (last : option Scenario)
    (now : string) (inp : Input) (st : Store) : Store * res outcome :=
  match load_parts rows with
  | Raise e => (st, Raise e)
  | Ok [] => (st, Ok NoPartsFound)
  | Ok parts =>
      let cats := group_by_category parts in
      match arg_scenario args with
      | Some (nm, mapping) =>
          match apply_scenario_mapping mapping cats with
          | Raise e => (st, Raise e)
          | Ok pk =>
              let total_w := Flt.sum (map weight_g (selected pk)) in
              let total_p := Flt.sum (map price_sgd (selected pk)) in
              if flag_save args
              then match save_scenario nm pk (total_w, total_p) now st with
                   | (st', Raise e) => (st', Raise e)
                   | (st', Ok _) => (st', Ok (ScenarioFromFile nm pk (total_w, total_p)))
                   end
              else (st, Ok (ScenarioFromFile nm pk (total_w, total_p)))
          end
      | None =>
          let preselect := if flag_clone_last args
                           then match last with
                                | Some sc => picks sc
                                | None => []
                                end
                           else [] in
          match scenario_name args inp with
          | Raise e => (st, Raise e)
          | Ok (nm, inp1) =>
              match interactive_session cats (preselect_objs preselect cats) inp1 with
              | Raise e => (st, Raise e)
              | Ok (pk, inp2) =>
                  let tot := summarize pk in
                  match wants_save args inp2 with
                  | Raise e => (st, Raise e)
                  | Ok true =>
                      match save_scenario nm pk tot now st with
                      | (st', Raise e) => (st', Raise e)
                      | (st', Ok path) => (st', Ok (ScenarioChosen nm pk tot (Some path)))
                      end
                  | Ok false => (st, Ok (ScenarioChosen nm pk tot None))
                  end
              end
          end
      end
  end.

(** ** The vocabulary of the properties *)

(** [q] occurs in [s]: the meaning of Python's [q in s]. *)
Definition occurs (q s : string) : Prop := exists pre post, s = pre ++ q ++ post.

(** The parts of category [c], in input order. *)
Definition in_category (c : string) (p : PartRecord) : bool := String.eqb (category p) c.

(** The order of the sort, in words: brands ascending in the code-point
    order of strings, models ascending among equal brands. *)
Definition str_lt (s t : string) : Prop := String.compare s t = Lt.
Definition str_le (s t : string) : Prop := String.compare s t <> Gt.
Definition brand_model_le (a b : PartRecord) : Prop :=
  str_lt (brand a) (brand b) \/ (brand a = brand b /\ str_le (model a) (model b)).

(** Same brand and same model. *)
Definition same_key (k : string * string) (p : PartRecord) : bool :=
  String.eqb (brand p) (fst k) && String.eqb (model p) (snd k).

Definition grouped (parts : list PartRecord) (acc : dict (list PartRecord))
  : dict (list PartRecord) := fold_left setdefault_append parts acc.

(** [q] names the option [o]: up to case, it is the model, or the brand, a
    space and the model. *)
Definition matches (q : string) (o : PartRecord) : Prop :=
  Str.lower q = Str.lower (model o)
  \/ Str.lower q = Str.lower (brand o ++ " " ++ model o).

(** The pick the loop of [apply_scenario_mapping] assigns to a category. *)
Definition pick_of (mapping : gmap string string) (cats : dict (list PartRecord))
    (cat : string) : option PartRecord :=
  match mapping !! cat with
  | Some want =>
      if Str.truthy want then resolve want (default [] (dict_get cat cats)) else None
  | None => None
  end.

(** A result that is a value, or one of the two exceptions a read can
    raise: the end of the input, and [int] on a superscript digit. *)
Definition benign {A} (r : res A) : Prop :=
  match r with
  | Ok _ => True
  | Raise e => e = EOFError \/ e = ValueError
  end.

(** The picks of a reloaded scenario, as a [Picks]: every entry is a
    record. *)
Definition as_picks (items : dict PartRecord) : Picks :=
  map (fun kv => (fst kv, Some (snd kv))) items.

(** [bool(v)] for a pick: a record is true, [None] is false. *)
Definition is_chosen (kv : string * option PartRecord) : bool :=
  match snd kv with
  | Some _ => true
  | None => false
  end.

(** The integer [int(x)] returns for a finite [x]. *)
Definition trunc (x : float) : Z :=
  match Flt.to_int x with
  | Ok z => z
  | Raise _ => 0%Z
  end.

(** The document [save_scenario] builds. *)
Definition scenario_data (name : string) (picks : Picks) (totals : float * float)
    (now : string) : Scenario :=
  {| name := name; created := now; picks := nonempty_items picks;
     total_weight_g := fst totals; total_price_sgd := snd totals |}.

(** The cells of the CSV row of a pick whose weight is finite. *)
Definition csv_cells (kv : string * PartRecord) : list cell :=
  [CStr (fst kv); CStr (brand (snd kv)); CStr (model (snd kv));
   variant_cell (snd kv); CInt (trunc (weight_g (snd kv)));
   CFloat (price_sgd (snd kv))].

(** The row the flat report would need to hold the values of the pick
    themselves. *)
Definition value_cells (kv : string * PartRecord) : list cell :=
  [CStr (fst kv); CStr (brand (snd kv)); CStr (model (snd kv));
   variant_cell (snd kv); CFloat (weight_g (snd kv));
   CFloat (price_sgd (snd kv))].

Definition finite_weight (v : PartRecord) : Prop := Flt.is_finite (weight_g v) = true.

(** ** Example data *)

Definition part (cat br md : string) (var : option string) (w p : float) : PartRecord :=
  {| category := cat; brand := br; model := md; variant := var;
     weight_g := w; price_sgd := p;
     notes := Some ""; source := Some ""; link := Some "" |}.

Definition row (cat br md : string) (var w p : option string) : CsvRow :=
  {| row_category := cat; row_brand := br; row_model := md; row_variant := var;
     row_weight_g := w; row_price_sgd := p;
     row_notes := Some ""; row_source := Some ""; row_link := Some "" |}.

Definition sid : PartRecord := part "Fork" "RockShox" "SID" (Some "120mm") 1700 900.
Definition xm481 : PartRecord := part "Wheelset" "DT" "XM481" (Some "29") 1850 400.
Definition pike : PartRecord := part "Fork" "RockShox" "Pike" None 1700.75 900.5.
Definition sid_again : PartRecord := part "Fork" "RockShox" "SID" (Some "100mm") 1650 950.
Definition unnamed_fork : PartRecord := part "Fork" "Generic" "" None 2000 100.

Definition catalog_rows : list CsvRow :=
  [row "Wheelset" "DT" "XM481" (Some "29") (Some "1850") (Some "400");
   row "Fork" "RockShox" "SID" (Some "120mm") (Some "1700") (Some "900")].

Definition no_args : Args :=
  {| arg_scenario := None; flag_save := false; flag_clone_last := false;
     flag_auto_save := false; arg_name := None |}.

Definition scenario_a : gmap string string :=
  <["Fork" := "SID"]> (<["Wheelset" := "xm481"]> ∅).

Definition picks_a : Picks := [("Fork", Some sid); ("Wheelset", Some xm481)].
Definition picks_pike : Picks := [("Fork", Some pike); ("Wheelset", None)].

(** The conversion [add_part_interactive] applies to the weight and the
    price it is given: [float(val)], and [0.0] when that raises. *)
Definition entered_number (val : string) : float :=
  match Flt.of_str val with
  | Ok x => x
  | Raise _ => 0%float
  end.

Definition malformed_rows : list CsvRow :=
  [row "Fork" "RockShox" "SID" None (Some "abc") (Some "900")].

Definition scenario_empty_value : gmap string string :=
  <["Fork" := ""]> (<["Saddle" := "Fizik"]> ∅).

Definition store_with_build : Store :=
  fst (save_scenario "Build" picks_a (summarize picks_a) "2024-01-01T00:00:00" ∅).

(** * Further vocabulary

    Definitions for the functions and properties beyond the ones above:
    the two documents [main] can also read, the entry of a new part, and
    the words of the properties stated on them. *)

(** A numeric field [load_parts] can convert: absent, empty, or a text
    [float] accepts. *)
Definition numeric_ok (x : option string) : Prop :=
  match x with
  | Some s => s = "" \/ exists f, Flt.of_str s = Ok f
  | None => True
  end.

(** The text fields of a part are those of its row. *)
Definition same_text (r : CsvRow) (p : PartRecord) : Prop :=
  category p = row_category r /\ brand p = row_brand r /\ model p = row_model r
  /\ variant p = row_variant r /\ notes p = row_notes r
  /\ source p = row_source r /\ link p = row_link r.



Definition heavy : PartRecord := part "Frame" "Acme" "Anvil" None infinity 10.
Definition picks_heavy : Picks :=
  [("Fork", Some sid); ("Frame", Some heavy); ("Wheelset", Some xm481)].

Definition file_args : Args :=
  {| arg_scenario := Some ("light", scenario_a); flag_save := false;
     flag_clone_last := true; flag_auto_save := false; arg_name := None |}.


(** ** The line-based mapping document: [parse_simple_yaml] *)

(** [line.split(":", 1)] for a line with a colon: the text before the
    first colon and the text after it; [None] when [":" in line] is
    false. *)
Fixpoint split_colon (s : string) : option (string * string) :=
  match s with
  | EmptyString => None
  | String c r =>
      if Ascii.eqb c ":" then Some (EmptyString, r)
      else match split_colon r with
           | Some (k, v) => Some (String c k, v)
           | None => None
           end
  end.

(** The double and the single quote, the characters the value is stripped
    of. *)
Definition is_quote (c : ascii) : bool := (Str.code c =? 34)%N || (Str.code c =? 39)%N.

Definition unquote (v : string) : string :=
  Str.rstrip_by is_quote (Str.lstrip_by is_quote v).

(** [line.startswith("#")] *)
Definition is_comment (line : string) : bool :=
  match line with
  | String c _ => Ascii.eqb c "#"
  | EmptyString => false
  end.

(** One round of the loop over the lines of the file. *)
Definition yaml_line (mapping : gmap string string) (line : string)
  : gmap string string :=
  let line := Str.strip line in
  if negb (Str.truthy line) || is_comment line then mapping
  else match split_colon line with
       | Some (k, v) => <[Str.strip k := unquote (Str.strip v)]> mapping
       | None => mapping
       end.

(** [parse_simple_yaml], from the lines of the file. *)
Definition parse_simple_yaml (lines : list string) : gmap string string :=
  fold_left yaml_line lines ∅.

(** No character satisfying [p] at either end. *)
Definition trimmed (p : ascii -> bool) (s : string) : Prop :=
  (forall c r, s = String c r -> p c = false)
  /\ (forall r c, s = r ++ String c EmptyString -> p c = false).

Definition quote : string := String (ascii_of_N 34) EmptyString.

Definition yaml_lines : list string :=
  ["# light build"; ""; "Fork : " ++ quote ++ "SID" ++ quote; "no entry here";
   "Wheelset: xm481"; "  Fork: Pike  "].


(** ** The last scenario saved: [load_last_scenario] *)

(** A file of the scenario directory as [load_last_scenario] sees it: the
    modification time [os.path.getmtime] reports for it and the document
    [json.load] reads from it. The list of the files is in the order
    [glob.glob] returns them. *)
Definition scenario_file : Type := Z * Scenario.

(** [sorted(files, key=os.path.getmtime)] *)
Definition mtime_lt (a b : scenario_file) : bool := (fst a <? fst b)%Z.

Definition load_last_scenario (files : list scenario_file) : option Scenario :=
  match last (py_sort mtime_lt files) with
  | Some f => Some (snd f)
  | None => None
  end.

(** ** The entry of a new part: [add_part_interactive] *)



Definition scenario_named (nm : string) : Scenario :=
  scenario_data nm picks_a (summarize picks_a) "t".

(** * Properties *)

(** ** Strings *)

Lemma lower_char_idem c : Str.lower_char (Str.lower_char c) = Str.lower_char c.
Proof. destruct c as [[] [] [] [] [] [] [] []]; reflexivity. Qed.

Lemma lower_idem s : Str.lower (Str.lower s) = Str.lower s.
Proof.
  induction s as [|c s IH]; simpl; [reflexivity|].
  now rewrite lower_char_idem, IH.
Qed.

Lemma append_String c s t : String c s ++ t = String c (s ++ t).
Proof. reflexivity. Qed.

Lemma append_empty t : "" ++ t = t.
Proof. reflexivity. Qed.

Lemma prefix_spec q s : String.prefix q s = true <-> exists post, s = q ++ post.
Proof.
  revert s; induction q as [|a q IH]; intros s.
  - destruct s; simpl; split; eauto.
  - destruct s as [|b s]; simpl.
    + split; [discriminate | intros [post H]; rewrite append_String in H; discriminate].
    + destruct (ascii_dec a b) as [->|Hne].
      * rewrite IH. split; intros [post H]; exists post;
          rewrite append_String in *; congruence.
      * split; [discriminate|].
        intros [post H]. rewrite append_String in H. congruence.
Qed.

Lemma contains_cons q c s :
  Str.contains q (String c s) = String.prefix q (String c s) || Str.contains q s.
Proof. reflexivity. Qed.

Lemma contains_spec q s : Str.contains q s = true <-> occurs q s.
Proof.
  induction s as [|c s IH].
  - change (Str.contains q "") with (String.prefix q "" || false).
    rewrite orb_false_r, prefix_spec. split.
    + intros [post H]. exists "", post. exact H.
    + intros [pre [post H]]. destruct pre; [|rewrite append_String in H; discriminate].
      rewrite append_empty in H. eauto.
  - rewrite contains_cons, orb_true_iff, prefix_spec, IH. split.
    + intros [[post H] | [pre [post H]]].
      * exists "", post. exact H.
      * exists (String c pre), post. rewrite append_String. now rewrite H.
    + intros [pre [post H]]. destruct pre as [|c' pre].
      * left. rewrite append_empty in H. eauto.
      * right. rewrite append_String in H. exists pre, post. congruence.
Qed.

Lemma contains_empty s : Str.contains "" s = true.
Proof. destruct s; reflexivity. Qed.

(** ** The order on strings and on sort keys *)

Lemma ascii_compare_trans a b c :
  Ascii.compare a b = Lt -> Ascii.compare b c = Lt -> Ascii.compare a c = Lt.
Proof. unfold Ascii.compare. rewrite !N.compare_lt_iff. lia. Qed.

Lemma ascii_compare_refl a : Ascii.compare a a = Eq.
Proof. unfold Ascii.compare. apply N.compare_refl. Qed.

Lemma string_compare_refl s : String.compare s s = Eq.
Proof. induction s; simpl; [reflexivity|]. now rewrite ascii_compare_refl. Qed.

Lemma string_compare_lt_trans x y z :
  String.compare x y = Lt -> String.compare y z = Lt -> String.compare x z = Lt.
Proof.
  revert y z; induction x as [|a x IH]; intros [|b y] [|c z]; simpl; try easy.
  destruct (Ascii.compare a b) eqn:Hab; try easy;
    destruct (Ascii.compare b c) eqn:Hbc; try easy; intros H1 H2.
  - apply Ascii.compare_eq_iff in Hab, Hbc. subst.
    rewrite ascii_compare_refl. eauto.
  - apply Ascii.compare_eq_iff in Hab. subst. now rewrite Hbc.
  - apply Ascii.compare_eq_iff in Hbc. subst. now rewrite Hab.
  - now rewrite (ascii_compare_trans _ _ _ Hab Hbc).
Qed.

Lemma string_compare_gt_lt x y : String.compare x y = Gt <-> String.compare y x = Lt.
Proof. rewrite (String.compare_antisym y x). destruct (String.compare x y); simpl; split; congruence. Qed.

Lemma string_ltb_asym x y : String.ltb x y = true -> String.ltb y x = false.
Proof.
  unfold String.ltb. rewrite (String.compare_antisym x y).
  destruct (String.compare y x); simpl; congruence.
Qed.

(** [x <= y <= z] gives [x <= z], with [x <= y] read as "not [y < x]". *)
Lemma string_le_trans x y z :
  String.ltb y x = false -> String.ltb z y = false -> String.ltb z x = false.
Proof.
  unfold String.ltb. intros Hxy Hyz.
  destruct (String.compare z x) eqn:Hzx; try reflexivity.
  destruct (String.compare y x) eqn:E1; try discriminate;
    destruct (String.compare z y) eqn:E2; try discriminate.
  - apply String.compare_eq_iff in E1, E2. subst.
    rewrite string_compare_refl in Hzx. discriminate.
  - apply String.compare_eq_iff in E1. subst. congruence.
  - apply String.compare_eq_iff in E2. subst. congruence.
  - apply string_compare_gt_lt in E1, E2.
    pose proof (string_compare_lt_trans _ _ _ E1 E2) as H.
    apply string_compare_gt_lt in H. congruence.
Qed.

Lemma key_lt_asym a b : key_lt a b = true -> key_lt b a = false.
Proof.
  unfold key_lt. rewrite (String.compare_antisym (fst a) (fst b)).
  destruct (String.compare (fst b) (fst a)); simpl; try congruence.
  apply string_ltb_asym.
Qed.

Lemma key_le_trans a b c :
  key_lt b a = false -> key_lt c b = false -> key_lt c a = false.
Proof.
  unfold key_lt. intros Hab Hbc.
  destruct (String.compare (fst b) (fst a)) eqn:E1; try discriminate;
    destruct (String.compare (fst c) (fst b)) eqn:E2; try discriminate.
  - apply String.compare_eq_iff in E1, E2. rewrite E2, E1, string_compare_refl.
    eapply string_le_trans; eassumption.
  - apply String.compare_eq_iff in E1. rewrite <- E1, E2. reflexivity.
  - apply String.compare_eq_iff in E2. rewrite E2, E1. reflexivity.
  - apply string_compare_gt_lt in E1, E2.
    pose proof (string_compare_lt_trans _ _ _ E1 E2) as H.
    apply string_compare_gt_lt in H. now rewrite H.
Qed.

Lemma key_lt_irrefl a : key_lt a a = false.
Proof.
  unfold key_lt, String.ltb. now rewrite string_compare_refl, string_compare_refl.
Qed.

(** ** Sorting *)

Section SortingFacts.
Context {A : Type} (lt : A -> A -> bool).

Lemma sort_insert_perm x l : sort_insert lt x l ≡ₚ x :: l.
Proof.
  induction l as [|y l IH]; simpl; [reflexivity|].
  destruct (lt y x); [|reflexivity].
  rewrite IH. apply Permutation_swap.
Qed.

Lemma py_sort_perm l : py_sort lt l ≡ₚ l.
Proof.
  induction l as [|x l IH]; simpl; [reflexivity|].
  now rewrite sort_insert_perm, IH.
Qed.

(** Elements that may not pass each other keep their order: the sort is
    stable on every class [p] of elements none of which is smaller than
    another. *)
Lemma sort_insert_filter (p : A -> bool) x l :
  (forall y, p x = true -> p y = true -> lt y x = false) ->
  List.filter p (sort_insert lt x l) = List.filter p (x :: l).
Proof.
  intros Hp. induction l as [|y l IH]; [reflexivity|].
  simpl sort_insert. destruct (lt y x) eqn:Hlt; [|reflexivity].
  pose proof (Hp y) as Hy. cbn [List.filter]. rewrite IH. cbn [List.filter].
  destruct (p x), (p y); try reflexivity.
  rewrite Hy in Hlt by reflexivity. discriminate.
Qed.

Lemma py_sort_filter (p : A -> bool) l :
  (forall x y, p x = true -> p y = true -> lt y x = false) ->
  List.filter p (py_sort lt l) = List.filter p l.
Proof.
  intros Hp. induction l as [|x l IH]; [reflexivity|].
  simpl py_sort. rewrite sort_insert_filter by (intros y; apply Hp).
  simpl. now rewrite IH.
Qed.

Hypothesis lt_asym : forall x y, lt x y = true -> lt y x = false.
Hypothesis le_trans : forall x y z, lt y x = false -> lt z y = false -> lt z x = false.

Lemma sort_insert_sorted x l :
  StronglySorted (fun a b => lt b a = false) l ->
  StronglySorted (fun a b => lt b a = false) (sort_insert lt x l).
Proof.
  induction 1 as [|y l Hs IH Hall]; simpl.
  - repeat constructor.
  - destruct (lt y x) eqn:Hlt.
    + constructor; [exact IH|].
      rewrite sort_insert_perm. constructor; [now apply lt_asym | exact Hall].
    + constructor; [now constructor|].
      constructor; [exact Hlt|].
      eapply Forall_impl; [exact Hall|]. intros z Hz. simpl in Hz.
      eapply le_trans; eassumption.
Qed.

Lemma py_sort_sorted l : StronglySorted (fun a b => lt b a = false) (py_sort lt l).
Proof.
  induction l as [|x l IH]; simpl; [constructor|]. now apply sort_insert_sorted.
Qed.
End SortingFacts.

(** ** Dictionaries *)

Section DictFacts.
Context {V : Type}.
Implicit Types (d : dict V) (k : string) (v : V).

Lemma dict_get_None k d : dict_get k d = None <-> k ∉ dict_keys d.
Proof.
  induction d as [|[k' v'] d IH]; simpl.
  - split; [intros _; apply not_elem_of_nil | reflexivity].
  - rewrite not_elem_of_cons. destruct (String.eqb_spec k k') as [->|Hne].
    + split; [discriminate | intros [H _]; congruence].
    + rewrite IH. tauto.
Qed.

Lemma dict_get_Some_key k v d : dict_get k d = Some v -> k ∈ dict_keys d.
Proof.
  intros H. destruct (decide (k ∈ dict_keys d)) as [|Hn]; [assumption|].
  apply dict_get_None in Hn. congruence.
Qed.

Lemma dict_get_is_Some k d : k ∈ dict_keys d -> is_Some (dict_get k d).
Proof.
  intros H. destruct (dict_get k d) eqn:E; [eauto|].
  apply dict_get_None in E. contradiction.
Qed.

Lemma dict_get_set_eq k v d : dict_get k (dict_set k v d) = Some v.
Proof.
  induction d as [|[k' v'] d IH]; simpl.
  - now rewrite String.eqb_refl.
  - destruct (String.eqb_spec k k') as [->|Hne]; simpl.
    + now rewrite String.eqb_refl.
    + destruct (String.eqb_spec k k'); [contradiction | exact IH].
Qed.

Lemma dict_get_set_ne k k' v d :
  k <> k' -> dict_get k' (dict_set k v d) = dict_get k' d.
Proof.
  intros Hne. induction d as [|[k0 v0] d IH]; simpl.
  - destruct (String.eqb_spec k' k); congruence.
  - destruct (String.eqb_spec k k0) as [->|Hk]; simpl.
    + destruct (String.eqb_spec k' k0); congruence.
    + destruct (String.eqb_spec k' k0); [reflexivity | exact IH].
Qed.

Lemma dict_keys_set_in k v d : k ∈ dict_keys d -> dict_keys (dict_set k v d) = dict_keys d.
Proof.
  induction d as [|[k' v'] d IH]; simpl; intros H.
  - now apply elem_of_nil in H.
  - destruct (String.eqb_spec k k') as [->|Hne]; simpl; [reflexivity|].
    apply elem_of_cons in H as [H|H]; [contradiction|].
    f_equal. now apply IH.
Qed.

Lemma dict_keys_set_notin k v d :
  k ∉ dict_keys d -> dict_keys (dict_set k v d) = (dict_keys d ++ [k])%list.
Proof.
  induction d as [|[k' v'] d IH]; simpl; intros H; [reflexivity|].
  apply not_elem_of_cons in H as [Hne H].
  destruct (String.eqb_spec k k'); [contradiction|]. simpl.
  f_equal. now apply IH.
Qed.

Lemma dict_keys_set_elem k k' v d :
  k' ∈ dict_keys (dict_set k v d) <-> k' = k \/ k' ∈ dict_keys d.
Proof.
  destruct (decide (k ∈ dict_keys d)) as [Hin|Hn].
  - rewrite dict_keys_set_in by assumption. split; [tauto|].
    intros [->|H]; assumption.
  - rewrite dict_keys_set_notin by assumption.
    rewrite elem_of_app, list_elem_of_singleton. tauto.
Qed.

Lemma dict_keys_set_NoDup k v d : NoDup (dict_keys d) -> NoDup (dict_keys (dict_set k v d)).
Proof.
  intros Hd. destruct (decide (k ∈ dict_keys d)) as [Hin|Hn].
  - now rewrite dict_keys_set_in.
  - rewrite dict_keys_set_notin by assumption.
    apply NoDup_app. split; [assumption|]. split.
    + intros x Hx Hk. apply list_elem_of_singleton in Hk. now subst.
    + apply NoDup_singleton.
Qed.

Lemma assign_all_keys_fresh f ks :
  NoDup ks -> forall d, (forall k, k ∈ ks -> k ∉ dict_keys d) ->
  dict_keys (assign_all f ks d) = (dict_keys d ++ ks)%list.
Proof.
  induction 1 as [|k ks Hk Hnd IH]; intros d Hfresh; simpl.
  - now rewrite app_nil_r.
  - rewrite IH.
    + rewrite dict_keys_set_notin by (apply Hfresh; left).
      now rewrite <- app_assoc.
    + intros k' Hk'. rewrite dict_keys_set_elem. intros [->|Hin]; [contradiction|].
      apply (Hfresh k'); [now right | assumption].
Qed.

Lemma assign_all_keys_present f ks :
  forall d, (forall k, k ∈ ks -> k ∈ dict_keys d) ->
  dict_keys (assign_all f ks d) = dict_keys d.
Proof.
  induction ks as [|k ks IH]; intros d Hin; simpl; [reflexivity|].
  rewrite IH.
  - apply dict_keys_set_in, Hin. left.
  - intros k' Hk'. rewrite dict_keys_set_elem. right. apply Hin. now right.
Qed.

Lemma assign_all_get f ks k d :
  dict_get k (assign_all f ks d)
  = if decide (k ∈ ks) then Some (f k) else dict_get k d.
Proof.
  revert d; induction ks as [|k0 ks IH]; intros d; simpl.
  - destruct (decide (k ∈ [])) as [H|_]; [now apply elem_of_nil in H | reflexivity].
  - rewrite IH. destruct (decide (k ∈ ks)) as [Hks|Hks].
    + rewrite decide_True by now right. reflexivity.
    + destruct (decide (k = k0)) as [->|Hne].
      * rewrite decide_True by now left. apply dict_get_set_eq.
      * rewrite decide_False by (rewrite elem_of_cons; tauto).
        apply dict_get_set_ne. congruence.
Qed.
End DictFacts.

(** ** The catalog: [group_by_category] *)

Lemma setdefault_append_get c acc p :
  dict_get c (setdefault_append acc p)
  = if in_category c p
    then Some (default [] (dict_get c acc) ++ [p])%list
    else dict_get c acc.
Proof.
  unfold setdefault_append, in_category.
  destruct (String.eqb_spec (category p) c) as [<-|Hne].
  - rewrite dict_get_set_eq. now destruct (dict_get (category p) acc).
  - now apply dict_get_set_ne.
Qed.

Lemma grouped_get c parts : forall acc,
  dict_get c (grouped parts acc)
  = match List.filter (in_category c) parts with
    | [] => dict_get c acc
    | l => Some (default [] (dict_get c acc) ++ l)%list
    end.
Proof.
  induction parts as [|p parts IH]; intros acc; [reflexivity|].
  unfold grouped in *. simpl. rewrite IH, setdefault_append_get.
  destruct (in_category c p); [|reflexivity]. simpl.
  destruct (List.filter (in_category c) parts); [reflexivity|].
  now rewrite <- app_assoc.
Qed.

Lemma grouped_keys_NoDup parts : forall acc,
  NoDup (dict_keys acc) -> NoDup (dict_keys (grouped parts acc)).
Proof.
  induction parts as [|p parts IH]; intros acc Hacc; [assumption|].
  apply IH. now apply dict_keys_set_NoDup.
Qed.

Lemma grouped_keys_elem c parts : forall acc,
  c ∈ dict_keys (grouped parts acc)
  <-> c ∈ dict_keys acc \/ exists p, p ∈ parts /\ category p = c.
Proof.
  induction parts as [|p parts IH]; intros acc.
  - simpl. split; [tauto|]. intros [H|[p [H _]]]; [assumption|].
    now apply elem_of_nil in H.
  - unfold grouped in *. simpl. rewrite IH. unfold setdefault_append.
    rewrite dict_keys_set_elem. split.
    + intros [[->|H]|[q [Hq Hc]]]; eauto.
      * right. exists p. split; [left|reflexivity].
      * right. exists q. split; [now right|assumption].
    + intros [H|[q [Hq Hc]]]; [tauto|].
      apply elem_of_cons in Hq as [->|Hq]; [left; left; congruence|].
      right. eauto.
Qed.

Lemma sorted_groups_keys (cats : dict (list PartRecord)) :
  dict_keys (map (fun kv => (fst kv, py_sort part_lt (snd kv))) cats) = dict_keys cats.
Proof. unfold dict_keys. rewrite map_map. reflexivity. Qed.

Lemma sorted_groups_get c (cats : dict (list PartRecord)) :
  dict_get c (map (fun kv => (fst kv, py_sort part_lt (snd kv))) cats)
  = option_map (py_sort part_lt) (dict_get c cats).
Proof.
  induction cats as [|[k l] cats IH]; simpl; [reflexivity|].
  destruct (String.eqb c k); [reflexivity | exact IH].
Qed.

Lemma group_by_category_get c parts :
  dict_get c (group_by_category parts)
  = match List.filter (in_category c) parts with
    | [] => None
    | l => Some (py_sort part_lt l)
    end.
Proof.
  unfold group_by_category. rewrite sorted_groups_get.
  fold (grouped parts []). rewrite grouped_get. simpl.
  now destruct (List.filter (in_category c) parts).
Qed.

Lemma group_by_category_keys_NoDup parts : NoDup (dict_keys (group_by_category parts)).
Proof.
  unfold group_by_category. rewrite sorted_groups_keys.
  apply grouped_keys_NoDup. constructor.
Qed.

Lemma group_by_category_keys_elem c parts :
  c ∈ dict_keys (group_by_category parts) <-> exists p, p ∈ parts /\ category p = c.
Proof.
  unfold group_by_category. rewrite sorted_groups_keys.
  fold (grouped parts []). rewrite grouped_keys_elem. simpl.
  split; [|tauto]. intros [H|H]; [now apply elem_of_nil in H | assumption].
Qed.

Lemma part_lt_false_iff a b : part_lt b a = false <-> brand_model_le a b.
Proof.
  unfold part_lt, key_lt, sort_key, brand_model_le, str_lt, str_le, String.ltb. simpl.
  rewrite (String.compare_antisym (brand a) (brand b)).
  rewrite (String.compare_antisym (model a) (model b)).
  destruct (String.compare (brand b) (brand a)) eqn:Eb; simpl.
  - apply String.compare_eq_iff in Eb.
    destruct (String.compare (model b) (model a)); simpl;
      intuition (try congruence).
  - split; [discriminate|]. intros [H|[H _]]; [discriminate|].
    rewrite H, string_compare_refl in Eb. discriminate.
  - tauto.
Qed.

Lemma same_key_no_pass k x y :
  same_key k x = true -> same_key k y = true -> part_lt y x = false.
Proof.
  unfold same_key. rewrite !andb_true_iff, !String.eqb_eq.
  intros [Hb Hm] [Hb' Hm']. unfold part_lt, sort_key.
  rewrite Hb, Hm, Hb', Hm'. apply key_lt_irrefl.
Qed.

Lemma StronglySorted_weaken {A} (R R' : A -> A -> Prop) l :
  (forall a b, R a b -> R' a b) -> StronglySorted R l -> StronglySorted R' l.
Proof.
  intros HR. induction 1 as [|x l Hs IH Hall]; constructor; [assumption|].
  eapply Forall_impl; [exact Hall|]. intros y. apply HR.
Qed.

(** C5. For every sequence of part records, the categories of the catalog
    [group_by_category] builds are exactly the distinct [category] values
    of the input (each once); the option list of a category holds exactly
    the input's records of that category, sorted by (brand, model)
    ascending in the case-sensitive code-point order of strings, and
    records with equal brand and model keep their input order. *)
Theorem group_by_category_sorted_groups (parts : list PartRecord) :
  let cats := group_by_category parts in
  NoDup (dict_keys cats)
  /\ (forall c, c ∈ dict_keys cats <-> exists p, p ∈ parts /\ category p = c)
  /\ (forall c, c ∈ dict_keys cats ->
        exists opts, dict_get c cats = Some opts
          /\ opts ≡ₚ List.filter (in_category c) parts
          /\ StronglySorted brand_model_le opts
          /\ forall k, List.filter (same_key k) opts
                       = List.filter (same_key k) (List.filter (in_category c) parts)).
Proof.
  intros cats. split; [apply group_by_category_keys_NoDup|].
  split; [intros c; apply group_by_category_keys_elem|].
  intros c Hc. apply dict_get_is_Some in Hc as [opts Hopts].
  exists opts. split; [exact Hopts|]. subst cats.
  rewrite group_by_category_get in Hopts.
  destruct (List.filter (in_category c) parts) as [|p l] eqn:E; [discriminate|].
  remember (p :: l) as pl eqn:Hpl. clear Hpl E.
  injection Hopts as <-. split; [apply py_sort_perm|]. split.
  - apply (StronglySorted_weaken (fun a b => part_lt b a = false)).
    + intros a b. apply part_lt_false_iff.
    + apply py_sort_sorted.
      * intros x y. apply key_lt_asym.
      * intros x y z. apply key_le_trans.
  - intros k. apply py_sort_filter. intros x y. apply same_key_no_pass.
Qed.

(** ** The resolver *)

Lemma resolve_test_iff q o :
  String.eqb (Str.lower (model o)) (Str.lower q)
  || String.eqb (Str.lower (brand o ++ " " ++ model o)) (Str.lower q) = true
  <-> matches q o.
Proof.
  unfold matches. rewrite orb_true_iff, !String.eqb_eq. intuition congruence.
Qed.

Lemma resolve_cons q o L :
  resolve q (o :: L)
  = if String.eqb (Str.lower (model o)) (Str.lower q)
       || String.eqb (Str.lower (brand o ++ " " ++ model o)) (Str.lower q)
    then Some o else resolve q L.
Proof. reflexivity. Qed.

Lemma resolve_Some q L o :
  resolve q L = Some o ->
  exists pre post, L = (pre ++ o :: post)%list /\ matches q o
                   /\ Forall (fun x => ~ matches q x) pre.
Proof.
  induction L as [|x L IH]; [discriminate|].
  rewrite resolve_cons.
  destruct (_ || _) eqn:E.
  - intros [= <-]. exists [], L. split; [reflexivity|].
    split; [now apply resolve_test_iff | constructor].
  - intros H. destruct (IH H) as (pre & post & -> & Hm & Hpre).
    exists (x :: pre), post. split; [reflexivity|]. split; [assumption|].
    constructor; [|assumption].
    rewrite <- resolve_test_iff, E. discriminate.
Qed.

Lemma resolve_None q L :
  resolve q L = None <-> Forall (fun x => ~ matches q x) L.
Proof.
  induction L as [|x L IH]; [split; [constructor | reflexivity]|].
  rewrite resolve_cons, Forall_cons, <- IH, <- resolve_test_iff.
  destruct (_ || _); split; try discriminate; intuition congruence.
Qed.

Lemma resolve_app q l1 l2 :
  resolve q (l1 ++ l2) = match resolve q l1 with
                         | Some r => Some r
                         | None => resolve q l2
                         end.
Proof.
  induction l1 as [|x l1 IH]; [reflexivity|].
  rewrite <- app_comm_cons, !resolve_cons. now destruct (_ || _).
Qed.

Lemma resolve_lower q L : resolve (Str.lower q) L = resolve q L.
Proof.
  induction L as [|x L IH]; [reflexivity|].
  now rewrite !resolve_cons, lower_idem, IH.
Qed.

(** C1. For every query [q] and option list [L], the resolution loop
    returns the first record of [L], in the order of [L], that [q] names up
    to case (by its model, or by its brand, one space and its model), and
    [None] (a value, not an exception) when no record of [L] does. Of two
    records with the same brand and model the later is never preferred: if
    it matches, the result stands at or before the position of the earlier
    one. Resolving the lower-cased query gives the same result. *)
Theorem resolve_returns_first_match (q : string) (L : list PartRecord) :
  match resolve q L with
  | Some o => exists pre post, L = (pre ++ o :: post)%list /\ matches q o
                               /\ Forall (fun x => ~ matches q x) pre
  | None => Forall (fun x => ~ matches q x) L
  end
  /\ resolve (Str.lower q) L = resolve q L
  /\ forall l1 a l2 b l3,
       L = (l1 ++ a :: l2 ++ b :: l3)%list ->
       brand a = brand b -> model a = model b -> matches q b ->
       exists r pre post,
         resolve q L = Some r /\ (l1 ++ [a] = pre ++ r :: post)%list
         /\ Forall (fun x => ~ matches q x) pre.
Proof.
  split; [|split].
  - destruct (resolve q L) as [o|] eqn:E.
    + now apply resolve_Some.
    + now apply resolve_None.
  - apply resolve_lower.
  - intros l1 a l2 b l3 -> Hb Hm Hq.
    assert (Ha : matches q a) by (unfold matches in *; now rewrite Hb, Hm).
    destruct (resolve q (l1 ++ [a])) as [r|] eqn:E.
    + destruct (resolve_Some _ _ _ E) as (pre & post & Hdec & _ & Hpre).
      exists r, pre, post. split; [|now split].
      change (l1 ++ a :: l2 ++ b :: l3)%list with (l1 ++ [a] ++ l2 ++ b :: l3)%list.
      now rewrite app_assoc, resolve_app, E.
    + apply resolve_None in E. apply Forall_app in E as [_ E].
      apply Forall_cons in E as [E _]. contradiction.
Qed.

(** ** Search *)

Lemma search_cons q o L :
  search q (o :: L)
  = if Str.contains (Str.lower (Str.strip q)) (haystack o)
    then o :: search q L else search q L.
Proof. reflexivity. Qed.

Lemma search_empty_query L : search "" L = L.
Proof.
  induction L as [|o L IH]; [reflexivity|].
  rewrite search_cons. change (Str.lower (Str.strip "")) with "".
  now rewrite contains_empty, IH.
Qed.

(** C9, as the code has it. For every line [q] and option list [L], the
    search returns exactly the records of [L] whose brand, model and variant
    (empty when absent), joined by single spaces and lower-cased, contain
    the query as a substring, the query being [q] stripped of leading and
    trailing white space and lower-cased; the order of [L] is kept, and the
    empty query matches every record. *)
Theorem search_returns_matching_in_order (q : string) (L : list PartRecord) :
  (forall o, o ∈ search q L
             <-> o ∈ L /\ occurs (Str.lower (Str.strip q)) (haystack o))
  /\ sublist (search q L) L
  /\ (forall o, occurs (Str.lower (Str.strip q)) (haystack o) ->
                search q (o :: L) = o :: search q L)
  /\ (forall o, ~ occurs (Str.lower (Str.strip q)) (haystack o) ->
                search q (o :: L) = search q L)
  /\ search q [] = []
  /\ search "" L = L.
Proof.
  split; [|split; [|split; [|split; [|split]]]].
  - intros o. unfold search. rewrite !list_elem_of_In, filter_In.
    now rewrite contains_spec.
  - induction L as [|o L IH]; [constructor|].
    rewrite search_cons. destruct (Str.contains _ _); now constructor.
  - intros o Ho. rewrite search_cons.
    apply contains_spec in Ho. now rewrite Ho.
  - intros o Ho. rewrite search_cons.
    destruct (Str.contains _ _) eqn:E; [|reflexivity].
    apply contains_spec in E. contradiction.
  - reflexivity.
  - apply search_empty_query.
Qed.

(** ** The canonical order of the categories *)

Lemma sorted_categories_perm cats : sorted_categories cats ≡ₚ dict_keys cats.
Proof. apply py_sort_perm. Qed.

Lemma sorted_categories_elem cats c : c ∈ sorted_categories cats <-> c ∈ dict_keys cats.
Proof. now rewrite sorted_categories_perm. Qed.

Lemma sorted_categories_NoDup cats :
  NoDup (dict_keys cats) -> NoDup (sorted_categories cats).
Proof. now rewrite sorted_categories_perm. Qed.

Lemma string_ltb_false_iff a b : String.ltb b a = false <-> str_le a b.
Proof.
  unfold String.ltb, str_le. rewrite (String.compare_antisym a b).
  destruct (String.compare b a); simpl; split; congruence.
Qed.

Lemma sorted_categories_sorted cats : StronglySorted str_le (sorted_categories cats).
Proof.
  apply (StronglySorted_weaken (fun a b => String.ltb b a = false)).
  - intros a b. apply string_ltb_false_iff.
  - apply py_sort_sorted.
    + apply string_ltb_asym.
    + apply string_le_trans.
Qed.

(** ** The mapping-driven session *)

Lemma mapping_step_ok mapping cats picks cat :
  cat ∈ dict_keys cats ->
  mapping_step mapping cats (Ok picks) cat
  = Ok (dict_set cat (pick_of mapping cats cat) picks).
Proof.
  intros Hin. unfold mapping_step, pick_of, dict_item. simpl.
  destruct (mapping !! cat) as [want|]; [|reflexivity].
  destruct (Str.truthy want); [|reflexivity].
  apply dict_get_is_Some in Hin as [opts ->]. reflexivity.
Qed.

Lemma mapping_fold_ok mapping cats ks : forall picks,
  (forall k, k ∈ ks -> k ∈ dict_keys cats) ->
  fold_left (mapping_step mapping cats) ks (Ok picks)
  = Ok (assign_all (pick_of mapping cats) ks picks).
Proof.
  induction ks as [|k ks IH]; intros picks Hin; [reflexivity|].
  cbn [fold_left]. rewrite mapping_step_ok by (apply Hin; left).
  apply IH. intros k' Hk'. apply Hin. now right.
Qed.

Lemma apply_scenario_mapping_ok mapping cats :
  apply_scenario_mapping mapping cats
  = Ok (assign_all (pick_of mapping cats) (sorted_categories cats) []).
Proof.
  apply mapping_fold_ok. intros k. apply sorted_categories_elem.
Qed.

Lemma apply_scenario_mapping_keys mapping cats picks :
  NoDup (dict_keys cats) ->
  apply_scenario_mapping mapping cats = Ok picks ->
  dict_keys picks = sorted_categories cats.
Proof.
  intros Hnd. rewrite apply_scenario_mapping_ok. intros [= <-].
  rewrite assign_all_keys_fresh; [reflexivity | now apply sorted_categories_NoDup |].
  intros k _. apply not_elem_of_nil.
Qed.

Lemma apply_scenario_mapping_get mapping cats picks cat :
  apply_scenario_mapping mapping cats = Ok picks ->
  dict_get cat picks
  = if decide (cat ∈ dict_keys cats) then Some (pick_of mapping cats cat) else None.
Proof.
  rewrite apply_scenario_mapping_ok. intros [= <-]. rewrite assign_all_get.
  destruct (decide (cat ∈ sorted_categories cats)) as [H|H];
    rewrite sorted_categories_elem in H.
  - now rewrite decide_True.
  - now rewrite decide_False.
Qed.

Lemma assign_all_ext {V} (f g : string -> V) ks : forall d,
  (forall k, k ∈ ks -> f k = g k) -> assign_all f ks d = assign_all g ks d.
Proof.
  induction ks as [|k ks IH]; intros d H; [reflexivity|].
  simpl. rewrite (H k) by now left. apply IH. intros k' Hk'. apply H. now right.
Qed.

(** C10. In a mapping-driven session an entry whose value is the empty
    string counts as an absent entry: the session is the one of the mapping
    without the entry, and the pick of the category is [None] whatever its
    options are (no option is looked at, not even one whose model is
    empty). An entry whose key is not a category of the catalog changes
    nothing: the session is the one of the mapping without it, and the key
    is not a key of the picks. *)
Theorem mapping_empty_value_and_unknown_key
    (mapping : gmap string string) (parts : list PartRecord) (cat : string) :
  let cats := group_by_category parts in
  (mapping !! cat = Some "" ->
     apply_scenario_mapping mapping cats
     = apply_scenario_mapping (delete cat mapping) cats
     /\ forall picks, apply_scenario_mapping mapping cats = Ok picks ->
          cat ∈ dict_keys cats -> dict_get cat picks = Some None)
  /\ (cat ∉ dict_keys cats ->
      forall want,
        apply_scenario_mapping (<[cat := want]> mapping) cats
        = apply_scenario_mapping (delete cat mapping) cats
        /\ forall picks, apply_scenario_mapping (<[cat := want]> mapping) cats = Ok picks ->
             dict_get cat picks = None).
Proof.
  intros cats. split.
  - intros Hempty. split.
    + rewrite !apply_scenario_mapping_ok. f_equal.
      apply assign_all_ext. intros k _. unfold pick_of.
      destruct (decide (k = cat)) as [->|Hne].
      * now rewrite Hempty, lookup_delete_eq.
      * now rewrite lookup_delete_ne.
    + intros picks Hp Hin. rewrite (apply_scenario_mapping_get _ _ _ _ Hp).
      rewrite decide_True by assumption. unfold pick_of. now rewrite Hempty.
  - intros Hnot want. split.
    + rewrite !apply_scenario_mapping_ok. f_equal.
      apply assign_all_ext. intros k Hk. apply sorted_categories_elem in Hk.
      unfold pick_of. assert (k <> cat) by congruence.
      now rewrite lookup_insert_ne, lookup_delete_ne.
    + intros picks Hp. rewrite (apply_scenario_mapping_get _ _ _ _ Hp).
      now rewrite decide_False.
Qed.

(** ** The interactive session *)

Lemma pick_index_Ok options idx r :
  pick_index options idx = Some r -> exists o, r = Ok o.
Proof.
  unfold pick_index. destruct (_ && _) eqn:E; [|discriminate].
  intros [= <-]. apply andb_true_iff in E as [H1 H2].
  apply Z.leb_le in H1, H2.
  destruct (nth_error options (Z.to_nat (idx - 1))) as [o|] eqn:En; [eauto|].
  apply nth_error_None in En. lia.
Qed.

Lemma int_of_digits_benign s : benign (Str.int_of_digits s).
Proof. unfold Str.int_of_digits. destruct (Str.all_chars _ _); simpl; auto. Qed.

Lemma choose_from_list_reads options inp :
  match choose_from_list options inp with
  | Ok (_, rest) => length rest < length inp
  | Raise e => e = EOFError \/ e = ValueError
  end.
Proof.
  induction inp as [|line inp IH]; simpl; [now left|].
  destruct (String.eqb (Str.strip line) ""); [lia|].
  destruct (String.eqb (Str.lower (Str.strip line)) "s"); [lia|].
  assert (Hrec : match choose_from_list options inp with
                 | Ok (_, rest) => length rest < S (length inp)
                 | Raise e => e = EOFError \/ e = ValueError
                 end).
  { destruct (choose_from_list options inp) as [[c rest]|e]; [lia | assumption]. }
  destruct (Str.isdigit (Str.strip line)); [|exact Hrec].
  pose proof (int_of_digits_benign (Str.strip line)) as Hb.
  destruct (Str.int_of_digits (Str.strip line)) as [idx|e]; simpl; [|exact Hb].
  destruct (pick_index options idx) as [r|] eqn:Ep; [|exact Hrec].
  apply pick_index_Ok in Ep as [o ->]. simpl. lia.
Qed.

Lemma pick_from_results_reads filtered inp :
  match pick_from_results filtered inp with
  | Ok (_, rest) => length rest < length inp
  | Raise e => e = EOFError \/ e = ValueError
  end.
Proof.
  induction inp as [|line inp IH]; simpl; [now left|].
  destruct (String.eqb (Str.strip line) ""); [lia|].
  assert (Hrec : match pick_from_results filtered inp with
                 | Ok (_, rest) => length rest < S (length inp)
                 | Raise e => e = EOFError \/ e = ValueError
                 end).
  { destruct (pick_from_results filtered inp) as [[c rest]|e]; [lia | assumption]. }
  destruct (Str.isdigit (Str.strip line)); [|exact Hrec].
  pose proof (int_of_digits_benign (Str.strip line)) as Hb.
  destruct (Str.int_of_digits (Str.strip line)) as [idx|e]; simpl; [|exact Hb].
  destruct (pick_index filtered idx) as [r|] eqn:Ep; [|exact Hrec].
  apply pick_index_Ok in Ep as [o ->]. simpl. lia.
Qed.

Lemma search_and_choose_reads options inp :
  match search_and_choose options inp with
  | Ok (_, rest) => length rest < length inp
  | Raise e => e = EOFError \/ e = ValueError
  end.
Proof.
  destruct inp as [|line inp]; simpl; [now left|].
  destruct (search line options) as [|o l]; [lia|].
  pose proof (pick_from_results_reads (o :: l) inp) as H.
  destruct (pick_from_results (o :: l) inp) as [[c rest]|e]; [lia | assumption].
Qed.

(** The loop of [pick_for_category] ends within the rounds it is given. *)
Lemma pick_loop_ends options preselect : forall fuel inp,
  length inp < fuel ->
  exists r, pick_loop fuel options preselect inp = Some r
            /\ match r with
               | Ok (_, rest) => length rest < length inp
               | Raise e => e = EOFError \/ e = ValueError
               end.
Proof.
  induction fuel as [|fuel IH]; intros inp Hlen; [lia|].
  simpl. pose proof (choose_from_list_reads options inp) as Hc.
  destruct (choose_from_list options inp) as [[c rest]|e];
    [|eexists; split; [reflexivity | exact Hc]].
  destruct c as [| |o];
    [eexists; split; [reflexivity | exact Hc] | |
     eexists; split; [reflexivity | exact Hc]].
  pose proof (search_and_choose_reads options rest) as Hs.
  destruct (search_and_choose options rest) as [[[o|] rest']|e].
  - eexists. split; [reflexivity|]. simpl. lia.
  - destruct (IH rest') as (r & -> & Hr); [lia|].
    exists r. split; [reflexivity|].
    destruct r as [[o rest'']|e]; [lia | assumption].
  - eexists. split; [reflexivity | exact Hs].
Qed.

Lemma pick_for_category_reads cat options preselect inp :
  match pick_for_category cat options preselect inp with
  | Ok (_, rest) => length rest < length inp
  | Raise e => e = EOFError \/ e = ValueError
  end.
Proof.
  unfold pick_for_category.
  destruct (pick_loop_ends options preselect (S (length inp)) inp) as (r & -> & Hr);
    [lia | exact Hr].
Qed.

(** An empty line skips the category, or keeps the preselected option. *)
Lemma pick_for_category_skip cat options preselect inp :
  pick_for_category cat options preselect ("" :: inp) = Ok (preselect, inp).
Proof. reflexivity. Qed.

Lemma session_loop_keys cats objs : forall todo picks inp,
  (forall c, c ∈ todo -> c ∈ dict_keys cats) ->
  (forall c, c ∈ todo -> c ∈ dict_keys picks) ->
  match session_loop cats objs todo picks inp with
  | Ok (pk, _) => dict_keys pk = dict_keys picks
  | Raise e => e = EOFError \/ e = ValueError
  end.
Proof.
  induction todo as [|cat todo IH]; intros picks inp Hcats Hpicks; [reflexivity|].
  simpl. unfold dict_item.
  destruct (dict_get_is_Some cat cats) as [options ->]; [apply Hcats; left|].
  simpl. pose proof (pick_for_category_reads cat options (preselect_for objs cat) inp) as Hp.
  destruct (pick_for_category cat options (preselect_for objs cat) inp)
    as [[choice inp']|e]; [|exact Hp].
  simpl. specialize (IH (dict_set cat choice picks) inp').
  destruct (session_loop cats objs todo (dict_set cat choice picks) inp')
    as [[pk rest]|e].
  - rewrite IH.
    + apply dict_keys_set_in, Hpicks. left.
    + intros c Hc. apply Hcats. now right.
    + intros c Hc. rewrite dict_keys_set_elem. right. apply Hpicks. now right.
  - apply IH.
    + intros c Hc. apply Hcats. now right.
    + intros c Hc. rewrite dict_keys_set_elem. right. apply Hpicks. now right.
Qed.

Lemma empty_picks_keys cats :
  NoDup (dict_keys cats) -> dict_keys (empty_picks cats) = sorted_categories cats.
Proof.
  intros Hnd. unfold empty_picks.
  change (fold_left (fun d k => dict_set k None d) (sorted_categories cats) [])
    with (assign_all (fun _ : string => @None PartRecord) (sorted_categories cats) []).
  rewrite assign_all_keys_fresh; [reflexivity | now apply sorted_categories_NoDup |].
  intros k _. apply not_elem_of_nil.
Qed.

(** With an empty line for every category the session runs to its end. *)
Lemma session_loop_all_skipped cats objs : forall todo picks,
  (forall c, c ∈ todo -> c ∈ dict_keys cats) ->
  exists pk, session_loop cats objs todo picks (repeat "" (length todo)) = Ok (pk, []).
Proof.
  induction todo as [|cat todo IH]; intros picks Hcats; [simpl; eauto|].
  cbn [length repeat session_loop]. unfold dict_item.
  destruct (dict_get_is_Some cat cats) as [options ->]; [apply Hcats; left|].
  cbn [bind]. rewrite pick_for_category_skip. cbn [bind fst snd].
  apply IH. intros c Hc. apply Hcats. now right.
Qed.

(** C6. For every catalog (built from any parts) and every mapping, the
    mapping-driven session returns picks whose keys are the categories of
    the catalog, each once and no other key, in the sorted order in which
    the categories are processed (ascending code-point order of strings).
    An interactive session that reaches its end returns picks with the same
    keys; it can only stop early by an exception of a read (the input ends,
    or [int] rejects a superscript digit), and with an empty line for every
    category it reaches its end. *)
Theorem picks_cover_every_category
    (parts : list PartRecord) (mapping : gmap string string)
    (objs : Picks) (inp : Input) :
  let cats := group_by_category parts in
  let cs := sorted_categories cats in
  (NoDup cs /\ (forall c, c ∈ cs <-> c ∈ dict_keys cats) /\ StronglySorted str_le cs)
  /\ (exists picks, apply_scenario_mapping mapping cats = Ok picks
                    /\ dict_keys picks = cs)
  /\ match interactive_session cats objs inp with
     | Ok (picks, _) => dict_keys picks = cs
     | Raise e => e = EOFError \/ e = ValueError
     end
  /\ (exists picks, interactive_session cats objs (repeat "" (length cs)) = Ok (picks, [])
                    /\ dict_keys picks = cs).
Proof.
  intros cats cs.
  pose proof (group_by_category_keys_NoDup parts) as Hnd. fold cats in Hnd.
  assert (Hkeys : forall inp',
            match interactive_session cats objs inp' with
            | Ok (picks, _) => dict_keys picks = cs
            | Raise e => e = EOFError \/ e = ValueError
            end).
  { intros inp'. unfold interactive_session.
    pose proof (session_loop_keys cats objs (sorted_categories cats)
                  (empty_picks cats) inp') as H.
    destruct (session_loop cats objs (sorted_categories cats) (empty_picks cats) inp')
      as [[pk rest]|e].
    - rewrite H; [now apply empty_picks_keys | apply sorted_categories_elem |].
      intros c Hc. now rewrite empty_picks_keys.
    - apply H; [apply sorted_categories_elem|].
      intros c Hc. now rewrite empty_picks_keys. }
  split; [|split; [|split]].
  - split; [now apply sorted_categories_NoDup|].
    split; [apply sorted_categories_elem | apply sorted_categories_sorted].
  - rewrite apply_scenario_mapping_ok. eexists. split; [reflexivity|].
    rewrite assign_all_keys_fresh; [reflexivity | now apply sorted_categories_NoDup |].
    intros k _. apply not_elem_of_nil.
  - apply Hkeys.
  - destruct (session_loop_all_skipped cats objs cs (empty_picks cats)) as [pk Hpk];
      [apply sorted_categories_elem|].
    exists pk. split; [exact Hpk|].
    specialize (Hkeys (repeat "" (length cs))).
    unfold interactive_session in Hkeys. fold cs in Hkeys.
    now rewrite Hpk in Hkeys.
Qed.

(** ** The scenario store *)

Lemma selected_nonempty_items pk : map snd (nonempty_items pk) = selected pk.
Proof.
  induction pk as [|[k [v|]] pk IH]; simpl; [reflexivity | now rewrite IH | exact IH].
Qed.

Lemma selected_as_picks items : selected (as_picks items) = map snd items.
Proof.
  induction items as [|[k v] items IH]; simpl; [reflexivity | now rewrite IH].
Qed.

Lemma as_picks_nonempty_items pk : as_picks (nonempty_items pk) = List.filter is_chosen pk.
Proof.
  induction pk as [|[k [v|]] pk IH]; simpl; [reflexivity | now rewrite IH | exact IH].
Qed.

Lemma append_inj_l s a b : s ++ a = s ++ b -> a = b.
Proof.
  induction s as [|c s IH]; [now rewrite !append_empty|].
  rewrite !append_String. intros [= H]. now apply IH.
Qed.

Lemma scen_path_ne_report n1 e1 n2 e2 :
  path_join SCEN_DIR n1 e1 <> path_join REPORT_DIR n2 e2.
Proof.
  unfold path_join, SCEN_DIR, REPORT_DIR. rewrite !append_String. discriminate.
Qed.

Lemma md_path_ne_csv n : path_join REPORT_DIR n ".md" <> path_join REPORT_DIR n ".csv".
Proof.
  unfold path_join. intros H.
  do 3 apply append_inj_l in H. discriminate.
Qed.

Lemma save_scenario_store nm pk tot now st :
  fst (save_scenario nm pk tot now st)
  = <[path_join REPORT_DIR nm ".csv" :=
        CsvFile (csv_header :: fst (csv_rows (nonempty_items pk)))]>
      (<[path_join REPORT_DIR nm ".md" := MdFile (md_report (scenario_data nm pk tot now))]>
         (<[path_join SCEN_DIR nm ".json" := JsonFile (scenario_data nm pk tot now)]> st)).
Proof.
  unfold save_scenario. destruct (csv_rows (nonempty_items pk)) as [rows [e|]]; reflexivity.
Qed.

Lemma save_scenario_result nm pk tot now st :
  snd (save_scenario nm pk tot now st)
  = match snd (csv_rows (nonempty_items pk)) with
    | Some e => Raise e
    | None => Ok (path_join SCEN_DIR nm ".json")
    end.
Proof.
  unfold save_scenario. destruct (csv_rows (nonempty_items pk)) as [rows [e|]]; reflexivity.
Qed.

Lemma save_scenario_load nm pk tot now st :
  load_scenario nm (fst (save_scenario nm pk tot now st))
  = Some (scenario_data nm pk tot now).
Proof.
  unfold load_scenario. rewrite save_scenario_store.
  rewrite lookup_insert_ne by (apply not_eq_sym, scen_path_ne_report).
  rewrite lookup_insert_ne by (apply not_eq_sym, scen_path_ne_report).
  now rewrite lookup_insert_eq.
Qed.

(** C2. For every picks and every name, saving with the totals [summarize]
    computes from those picks (what [main] hands to [save_scenario] on both
    of its paths) stores a scenario whose picks are exactly the non-empty
    entries of the picks, in their order, and whose two totals are the sums
    of [weight_g] and of [price_sgd] over these stored picks; reloading the
    scenario and summing over its picks again gives the stored totals, the
    very same floats (nothing is rounded on saving). *)
Theorem saved_totals_are_sums_of_saved_picks
    (nm : string) (pk : Picks) (now : string) (st : Store) :
  exists sc,
    load_scenario nm (fst (save_scenario nm pk (summarize pk) now st)) = Some sc
    /\ as_picks (picks sc) = List.filter is_chosen pk
    /\ total_weight_g sc = Flt.sum (map weight_g (map snd (picks sc)))
    /\ total_price_sgd sc = Flt.sum (map price_sgd (map snd (picks sc)))
    /\ summarize (as_picks (picks sc)) = (total_weight_g sc, total_price_sgd sc).
Proof.
  exists (scenario_data nm pk (summarize pk) now).
  split; [apply save_scenario_load|]. simpl.
  split; [apply as_picks_nonempty_items|].
  rewrite selected_nonempty_items. split; [reflexivity|]. split; [reflexivity|].
  unfold summarize. now rewrite selected_as_picks, selected_nonempty_items.
Qed.

(** Both saves of [main] are made with the totals of the picks saved. *)
Lemma main_saves_summarized_totals args rows last now inp st st' nm pk tot :
  (main args rows last now inp st = (st', Ok (ScenarioFromFile nm pk tot))
   \/ exists path, main args rows last now inp st
                   = (st', Ok (ScenarioChosen nm pk tot (Some path)))) ->
  tot = summarize pk
  /\ (st' = st \/ st' = fst (save_scenario nm pk (summarize pk) now st)).
Proof.
  unfold main.
  destruct (load_parts rows) as [[|p parts]|e];
    [intros [H|[path H]]; discriminate | | intros [H|[path H]]; discriminate].
  destruct (arg_scenario args) as [[nm' mapping]|].
  - destruct (apply_scenario_mapping mapping _) as [pk'|e];
      [|intros [H|[path H]]; discriminate].
    destruct (flag_save args).
    + fold (summarize pk').
      destruct (save_scenario nm' pk' (summarize pk') now st) as [st1 [path|e]] eqn:E;
        intros [H|[path' H]]; try discriminate.
      injection H as <- <- <- <-. split; [reflexivity|]. right. now rewrite E.
    + intros [H|[path' H]]; try discriminate.
      injection H as <- <- <- <-. split; [reflexivity|]. now left.
  - destruct (scenario_name args inp) as [[nm' inp1]|e];
      [|intros [H|[path H]]; discriminate].
    destruct (interactive_session _ _ inp1) as [[pk' inp2]|e];
      [|intros [H|[path H]]; discriminate].
    destruct (wants_save args inp2) as [[|]|e];
      [| intros [H|[path H]]; discriminate | intros [H|[path H]]; discriminate].
    destruct (save_scenario nm' pk' (summarize pk') now st) as [st1 [path|e]] eqn:E;
      intros [H|[path' H]]; try discriminate.
    injection H as <- <- <- <- <-. split; [reflexivity|]. right. now rewrite E.
Qed.

(** ** The reports *)

Lemma to_int_finite x : Flt.is_finite x = true -> Flt.to_int x = Ok (trunc x).
Proof.
  unfold trunc, Flt.to_int, Flt.is_finite.
  destruct (Prim2SF x); try discriminate; reflexivity.
Qed.

Lemma csv_rows_finite items :
  Forall finite_weight (map snd items) ->
  csv_rows items = (map csv_cells items, None).
Proof.
  induction items as [|[cat v] items IH]; intros H; [reflexivity|].
  simpl in H. apply Forall_cons in H as [Hv H]. simpl. unfold csv_row.
  rewrite (to_int_finite (weight_g v) Hv). simpl. now rewrite IH.
Qed.

(** C7. For every name, picks and totals, saving under a name for which a
    scenario is already persisted replaces that scenario: afterwards the
    scenario read back under the name is the one just built. What the save
    returns does not depend on what the store held (it is what the save
    into an empty store returns), and it is the path of the scenario file
    whenever every chosen weight is a finite number. *)
Theorem save_overwrites_existing_scenario
    (nm : string) (pk : Picks) (tot : float * float) (now : string)
    (st : Store) (old : Scenario) :
  load_scenario nm st = Some old ->
  load_scenario nm (fst (save_scenario nm pk tot now st))
  = Some (scenario_data nm pk tot now)
  /\ snd (save_scenario nm pk tot now st) = snd (save_scenario nm pk tot now ∅)
  /\ (Forall finite_weight (selected pk) ->
      snd (save_scenario nm pk tot now st) = Ok (path_join SCEN_DIR nm ".json")).
Proof.
  intros _. split; [apply save_scenario_load|]. split.
  - now rewrite !save_scenario_result.
  - intros Hfin. rewrite save_scenario_result, csv_rows_finite; [reflexivity|].
    now rewrite selected_nonempty_items.
Qed.

(** C8, as the code has it. For every save whose chosen weights are finite,
    the flat report is the header row [category, brand, model, variant,
    weight_g, price_sgd] followed by one row per non-empty pick, in the
    order of the picks, which is also the order of the rows of the tabular
    document; a row holds the category, the brand, the model, the variant
    (empty when there is none), the weight truncated to an integer and the
    price as it is, where the tabular document prints the weight and the
    price rounded to no decimals. *)
Theorem csv_report_lists_picks_with_truncated_weight
    (nm : string) (pk : Picks) (tot : float * float) (now : string) (st : Store) :
  Forall finite_weight (selected pk) ->
  let st' := fst (save_scenario nm pk tot now st) in
  st' !! path_join REPORT_DIR nm ".csv"
  = Some (CsvFile (csv_header :: map csv_cells (nonempty_items pk)))
  /\ st' !! path_join REPORT_DIR nm ".md"
     = Some (MdFile (md_header nm
                       ++ map (fun kv => md_row (fst kv) (snd kv)) (nonempty_items pk)
                       ++ [md_totals (scenario_data nm pk tot now)])%list)
  /\ csv_header = map CStr ["category"; "brand"; "model"; "variant"; "weight_g"; "price_sgd"]
  /\ map snd (nonempty_items pk) = selected pk.
Proof.
  intros Hfin st'. subst st'. rewrite save_scenario_store.
  rewrite csv_rows_finite by now rewrite selected_nonempty_items.
  split; [apply lookup_insert_eq|]. split.
  - rewrite lookup_insert_ne by (apply not_eq_sym, md_path_ne_csv).
    now rewrite lookup_insert_eq.
  - split; [reflexivity | apply selected_nonempty_items].
Qed.

(** ** Loading and the empty catalog *)

Lemma float_or_zero_missing : float_or_zero None = Ok 0%float.
Proof. reflexivity. Qed.

Lemma float_or_zero_empty : float_or_zero (Some "") = Ok 0%float.
Proof. reflexivity. Qed.

(** A non-empty field that [float] rejects makes the loading raise. *)
Lemma load_parts_raises_on_rejected_weight rows1 row rows2 s ps e :
  load_parts rows1 = Ok ps ->
  row_weight_g row = Some s -> Str.truthy s = true -> Flt.of_str s = Raise e ->
  load_parts (rows1 ++ row :: rows2) = Raise e.
Proof.
  revert ps; induction rows1 as [|r rows1 IH]; intros ps Hps Hs Ht He.
  - simpl. unfold load_row, float_or_zero. now rewrite Hs, Ht, He.
  - simpl in *. destruct (load_row r) as [p|e']; [|discriminate]. simpl in *.
    destruct (load_parts rows1) as [ps'|e']; [|discriminate].
    now rewrite (IH ps' eq_refl Hs Ht He).
Qed.

Lemma load_parts_nil rows : load_parts rows = Ok [] <-> rows = [].
Proof.
  split; [|now intros ->]. destruct rows as [|r rows]; [reflexivity|].
  simpl. destruct (load_row r); [|discriminate]. simpl.
  destruct (load_parts rows); discriminate.
Qed.

(** C4, as the code has it. [group_by_category] does not fail on the empty
    sequence: it returns the empty catalog. The empty case is caught before
    the catalog is built: on an empty list of parts [main] reports that no
    parts were found and returns, without reading any input, without
    touching the store and without starting a session, whatever its
    arguments are; no exception is raised. *)
Theorem main_stops_before_building_an_empty_catalog
    (args : Args) (last : option Scenario) (now : string) (inp : Input) (st : Store) :
  group_by_category [] = []
  /\ load_parts [] = Ok []
  /\ main args [] last now inp st = (st, Ok NoPartsFound).
Proof. repeat split. Qed.

(** ** Worked examples *)

Example lower_ex : Str.lower "TREK Fuel" = "trek fuel".
Proof. reflexivity. Qed.
Example strip_ex : Str.strip "  sid 	" = "sid".
Proof. reflexivity. Qed.
Example contains_ex : Str.contains "29" "maxxis ikon 29x2.35" = true.
Proof. reflexivity. Qed.
Example of_str_ex1 : Flt.of_str "1700" = Ok 1700%float.
Proof. vm_compute. reflexivity. Qed.
Example of_str_ex2 : Flt.of_str " 0.1 " = Ok 0x1.999999999999ap-4%float.
Proof. vm_compute. reflexivity. Qed.
Example of_str_ex3 : Flt.of_str "1_850.75e0" = Ok 1850.75%float.
Proof. vm_compute. reflexivity. Qed.
Example of_str_ex4 : Flt.of_str "abc" = Raise ValueError.
Proof. vm_compute. reflexivity. Qed.
Example of_str_ex5 : Flt.of_str "1e" = Raise ValueError.
Proof. vm_compute. reflexivity. Qed.
Example to_int_ex : Flt.to_int 1700.75%float = Ok 1700%Z.
Proof. vm_compute. reflexivity. Qed.
Example fmt0_ex1 : Flt.fmt0 1700.75%float = "1701".
Proof. vm_compute. reflexivity. Qed.
Example fmt0_ex2 : Flt.fmt0 0.5%float = "0".
Proof. vm_compute. reflexivity. Qed.

Example load_parts_catalog : load_parts catalog_rows = Ok [xm481; sid].
Proof. vm_compute. reflexivity. Qed.

Example group_by_category_catalog :
  group_by_category [xm481; sid_again; sid; pike]
  = [("Wheelset", [xm481]); ("Fork", [pike; sid_again; sid])].
Proof. vm_compute. reflexivity. Qed.

Example scenario_a_picks :
  apply_scenario_mapping scenario_a (group_by_category [xm481; sid]) = Ok picks_a.
Proof. vm_compute. reflexivity. Qed.

Example scenario_a_totals : summarize picks_a = (3550%float, 1300%float).
Proof. vm_compute. reflexivity. Qed.

Example scenario_b_no_match :
  apply_scenario_mapping (<["Fork" := "Pike"]> scenario_a) (group_by_category [xm481; sid])
  = Ok [("Fork", None); ("Wheelset", Some xm481)].
Proof. vm_compute. reflexivity. Qed.

Example search_variant : search "29" [sid; xm481] = [xm481].
Proof. vm_compute. reflexivity. Qed.

Example interactive_pick_by_search :
  pick_for_category "Fork" [pike; sid] None ["x"; "s"; " Sid "; "7"; "1"; "left"]
  = Ok (Some sid, ["left"]).
Proof. vm_compute. reflexivity. Qed.

Example main_from_file :
  main {| arg_scenario := Some ("light", scenario_a); flag_save := true;
          flag_clone_last := false; flag_auto_save := false; arg_name := None |}
       catalog_rows None "2024-01-01T00:00:00" [] ∅
  = (fst (save_scenario "light" picks_a (3550%float, 1300%float) "2024-01-01T00:00:00" ∅),
     Ok (ScenarioFromFile "light" picks_a (3550%float, 1300%float))).
Proof. vm_compute. reflexivity. Qed.

(** C3. The code at the failing input: a row of the catalog whose weight
    is the text [abc] makes [load_parts] raise the [ValueError] of
    [float], and the run of [main] ends with it, where an absent or empty
    field loads as zero and the entry of a new part turns the same text
    into zero. *)
Theorem load_parts_raises_on_malformed_weight :
  load_parts malformed_rows = Raise ValueError
  /\ main no_args malformed_rows None "" [] ∅ = (∅, Raise ValueError)
  /\ float_or_zero None = Ok 0%float
  /\ float_or_zero (Some "") = Ok 0%float
  /\ entered_number "abc" = 0%float.
Proof. vm_compute. repeat split. Qed.

(** C4, the claim at the empty sequence: the catalog is built (it is
    empty), nothing fails, and [main] returns normally. *)
Lemma build_of_no_records_is_the_empty_catalog :
  group_by_category [] = []
  /\ snd (main no_args [] None "" [] ∅) = Ok NoPartsFound.
Proof. split; reflexivity. Qed.

(** C8, the claim at a pick weighing 1700.75 g at 900.5 SGD: the row of
    the flat report holds the integer 1700, not the weight, and the row of
    the tabular document prints 1701 and 900. *)
Lemma csv_weight_differs_from_pick_and_markdown :
  let st' := fst (save_scenario "cx" picks_pike (summarize picks_pike) "t" ∅) in
  st' !! path_join REPORT_DIR "cx" ".csv"
  = Some (CsvFile [csv_header;
                   [CStr "Fork"; CStr "RockShox"; CStr "Pike"; CNone;
                    CInt 1700; CFloat 900.5]])
  /\ weight_g pike = 1700.75%float
  /\ md_cells "Fork" pike = ["Fork"; "RockShox"; "Pike"; "None"; "1701"; "900"]
  /\ st' !! path_join REPORT_DIR "cx" ".csv"
     <> Some (CsvFile (csv_header :: map value_cells (nonempty_items picks_pike))).
Proof.
  split; [vm_compute; reflexivity|]. split; [reflexivity|].
  split; [vm_compute; reflexivity|].
  vm_compute. intros H. discriminate H.
Qed.

(** C9, the claim at the query of two spaces: the search returns the
    option although its text does not contain two spaces in a row. *)
Lemma search_strips_the_query :
  search "  " [sid] = [sid]
  /\ haystack sid = "rockshox sid 120mm"
  /\ ~ occurs (Str.lower "  ") (haystack sid).
Proof.
  split; [vm_compute; reflexivity|]. split; [vm_compute; reflexivity|].
  rewrite <- contains_spec. vm_compute. discriminate.
Qed.

(** C1 at a list with two SID forks: the earlier one is returned, in either
    case of the query. *)
Lemma resolve_returns_first_match_witness :
  resolve "rockshox SID" [pike; sid; sid_again] = Some sid
  /\ resolve (Str.lower "rockshox SID") [pike; sid; sid_again] = Some sid
  /\ exists r pre post,
       resolve "rockshox SID" [pike; sid; sid_again] = Some r
       /\ ([pike] ++ [sid] = pre ++ r :: post)%list
       /\ Forall (fun x => ~ matches "rockshox SID" x) pre.
Proof.
  destruct (resolve_returns_first_match "rockshox SID" [pike; sid; sid_again])
    as (_ & H2 & H3).
  split; [vm_compute; reflexivity|].
  split; [rewrite H2; vm_compute; reflexivity|].
  apply (H3 [pike] sid [] sid_again []); try reflexivity.
  right. vm_compute. reflexivity.
Defined.

(** C10 at a catalog whose fork has an empty model, which the empty string
    would resolve to, and a mapping with an empty value and a key that is no
    category. *)
Lemma mapping_empty_value_and_unknown_key_witness :
  resolve "" [unnamed_fork] = Some unnamed_fork
  /\ apply_scenario_mapping scenario_empty_value (group_by_category [unnamed_fork; xm481])
     = Ok [("Fork", None); ("Wheelset", None)]
  /\ apply_scenario_mapping scenario_empty_value (group_by_category [unnamed_fork; xm481])
     = apply_scenario_mapping (delete "Fork" scenario_empty_value)
         (group_by_category [unnamed_fork; xm481])
  /\ apply_scenario_mapping (<["Saddle" := "Fizik"]> (<["Fork" := ""]> ∅))
       (group_by_category [unnamed_fork; xm481])
     = apply_scenario_mapping (delete "Saddle" (<["Fork" := ""]> ∅))
         (group_by_category [unnamed_fork; xm481]).
Proof.
  split; [vm_compute; reflexivity|]. split; [vm_compute; reflexivity|]. split.
  - pose proof (mapping_empty_value_and_unknown_key scenario_empty_value
                  [unnamed_fork; xm481] "Fork") as T.
    cbv zeta in T. destruct T as [T _]. apply T.
    vm_compute. reflexivity.
  - pose proof (mapping_empty_value_and_unknown_key (<["Fork" := ""]> ∅)
                  [unnamed_fork; xm481] "Saddle") as T.
    cbv zeta in T. destruct T as [_ T]. apply T.
    intros H. pose proof (proj1 (list_elem_of_In _ _) H) as Hin.
    vm_compute in Hin. destruct Hin as [Hin|[Hin|[]]]; discriminate Hin.
Defined.

(** C7 at a store that already holds a scenario named Build. *)
Lemma save_overwrites_existing_scenario_witness :
  load_scenario "Build" store_with_build
  = Some (scenario_data "Build" picks_a (summarize picks_a) "2024-01-01T00:00:00")
  /\ load_scenario "Build"
       (fst (save_scenario "Build" picks_pike (0%float, 0%float) "2024-02-02T00:00:00"
               store_with_build))
     = Some (scenario_data "Build" picks_pike (0%float, 0%float) "2024-02-02T00:00:00")
  /\ snd (save_scenario "Build" picks_pike (0%float, 0%float) "2024-02-02T00:00:00"
            store_with_build)
     = Ok (path_join SCEN_DIR "Build" ".json").
Proof.
  assert (H : load_scenario "Build" store_with_build
              = Some (scenario_data "Build" picks_a (summarize picks_a)
                        "2024-01-01T00:00:00")) by apply save_scenario_load.
  split; [exact H|].
  destruct (save_overwrites_existing_scenario "Build" picks_pike (0%float, 0%float)
              "2024-02-02T00:00:00" store_with_build _ H) as (H1 & _ & H3).
  split; [exact H1|].
  apply H3. repeat constructor.
Defined.

(** C8 at the picks of the counterexample. *)
Lemma csv_report_lists_picks_with_truncated_weight_witness :
  Forall finite_weight (selected picks_pike)
  /\ fst (save_scenario "cx" picks_pike (summarize picks_pike) "t" ∅)
       !! path_join REPORT_DIR "cx" ".csv"
     = Some (CsvFile (csv_header :: map csv_cells (nonempty_items picks_pike))).
Proof.
  assert (H : Forall finite_weight (selected picks_pike)) by (repeat constructor).
  split; [exact H|].
  apply (csv_report_lists_picks_with_truncated_weight "cx" picks_pike
           (summarize picks_pike) "t" ∅ H).
Defined.

(** * Further properties *)

(** ** Loading *)

Lemma of_str_raises_ValueError s e : Flt.of_str s = Raise e -> e = ValueError.
Proof.
  unfold Flt.of_str.
  destruct (Flt.sign _) as [neg body].
  destruct (_ || _); [discriminate|].
  destruct (String.eqb _ _); [discriminate|].
  destruct (Flt.number body) as [[[m k] rest]|]; [|congruence].
  destruct (Flt.exponent rest); [discriminate | congruence].
Qed.

Lemma float_or_zero_ok x : numeric_ok x -> exists f, float_or_zero x = Ok f.
Proof.
  destruct x as [s|]; simpl; [|eauto].
  intros [->|[f Hf]]; [simpl; eauto|].
  destruct (Str.truthy s); eauto.
Qed.

Lemma float_or_zero_raises x :
  ~ numeric_ok x -> float_or_zero x = Raise ValueError.
Proof.
  destruct x as [s|]; simpl; [|tauto]. intros Hn.
  destruct s as [|c s]; [exfalso; apply Hn; left; reflexivity|]. simpl.
  destruct (Flt.of_str (String c s)) as [f|e] eqn:E.
  - exfalso. apply Hn. right. eauto.
  - now rewrite (of_str_raises_ValueError _ _ E).
Qed.

Lemma numeric_ok_dec x : numeric_ok x \/ ~ numeric_ok x.
Proof.
  destruct x as [s|]; simpl; [|tauto].
  destruct (Flt.of_str s) as [f|e] eqn:E; [left; right; eauto|].
  destruct s as [|c s]; [left; left; reflexivity|].
  right. intros [H|[f H]]; [discriminate | congruence].
Qed.

Lemma load_row_ok r :
  numeric_ok (row_weight_g r) -> numeric_ok (row_price_sgd r) ->
  exists p, load_row r = Ok p /\ same_text r p
            /\ float_or_zero (row_weight_g r) = Ok (weight_g p)
            /\ float_or_zero (row_price_sgd r) = Ok (price_sgd p).
Proof.
  intros Hw Hp. unfold load_row.
  destruct (float_or_zero_ok _ Hw) as [w ->].
  destruct (float_or_zero_ok _ Hp) as [p ->]. simpl.
  eexists. split; [reflexivity|]. repeat split.
Qed.

Lemma load_row_raises r :
  ~ (numeric_ok (row_weight_g r) /\ numeric_ok (row_price_sgd r)) ->
  load_row r = Raise ValueError.
Proof.
  intros Hn. unfold load_row.
  destruct (numeric_ok_dec (row_weight_g r)) as [Hw|Hw].
  - destruct (float_or_zero_ok _ Hw) as [w ->]. simpl.
    rewrite float_or_zero_raises; [reflexivity | tauto].
  - now rewrite float_or_zero_raises.
Qed.

(** X1. [load_parts] succeeds exactly when every weight and every price
    of the rows is absent, empty, or a text [float] accepts. It then returns
    one part per row, in the order of the rows, with the text fields of the
    row unchanged and each number converted (zero for an absent or empty
    field). Otherwise it raises [ValueError], and nothing else. *)
Theorem load_parts_succeeds_iff_numbers_parse (rows : list CsvRow) :
  (Forall (fun r => numeric_ok (row_weight_g r) /\ numeric_ok (row_price_sgd r)) rows ->
   exists ps, load_parts rows = Ok ps
     /\ Forall2 (fun r p => same_text r p
                   /\ float_or_zero (row_weight_g r) = Ok (weight_g p)
                   /\ float_or_zero (row_price_sgd r) = Ok (price_sgd p)) rows ps)
  /\ (~ Forall (fun r => numeric_ok (row_weight_g r) /\ numeric_ok (row_price_sgd r)) rows ->
      load_parts rows = Raise ValueError).
Proof.
  induction rows as [|r rows [IHok IHbad]]; split.
  - intros _. exists []. split; [reflexivity | constructor].
  - intros H. exfalso. apply H. constructor.
  - intros H. apply Forall_cons in H as [[Hw Hp] H].
    destruct (load_row_ok r Hw Hp) as (p & Hr & Hp').
    destruct (IHok H) as (ps & Hps & Hall).
    exists (p :: ps). simpl. rewrite Hr, Hps. split; [reflexivity|].
    now constructor.
  - intros H. simpl.
    destruct (numeric_ok_dec (row_weight_g r)) as [Hw|Hw];
      [destruct (numeric_ok_dec (row_price_sgd r)) as [Hp|Hp]|].
    + destruct (load_row_ok r Hw Hp) as (p & -> & _). simpl.
      rewrite IHbad; [reflexivity|]. intros Hrows. apply H. now constructor.
    + rewrite load_row_raises; [reflexivity | tauto].
    + rewrite load_row_raises; [reflexivity | tauto].
Qed.

(** ** The catalog keeps every part *)

Lemma dict_set_append_concat {A} (d : dict (list A)) k l x :
  dict_get k d = Some l \/ (dict_get k d = None /\ l = []) ->
  List.concat (dict_values (dict_set k (l ++ [x])%list d))
  ≡ₚ (List.concat (dict_values d) ++ [x])%list.
Proof.
  induction d as [|[k' v'] d IH]; simpl.
  - intros [H|[_ ->]]; [discriminate | reflexivity].
  - destruct (String.eqb_spec k k') as [->|Hne]; simpl.
    + intros [[= ->]|[H _]]; [|discriminate].
      rewrite <- !app_assoc. apply Permutation_app_head, Permutation_app_comm.
    + intros H. unfold dict_values in IH. rewrite (IH H).
      now rewrite app_assoc.
Qed.

Lemma setdefault_append_concat acc p :
  List.concat (dict_values (setdefault_append acc p))
  ≡ₚ (List.concat (dict_values acc) ++ [p])%list.
Proof.
  unfold setdefault_append. apply dict_set_append_concat.
  destruct (dict_get (category p) acc); [now left | now right].
Qed.

Lemma grouped_concat parts : forall acc,
  List.concat (dict_values (grouped parts acc))
  ≡ₚ (List.concat (dict_values acc) ++ parts)%list.
Proof.
  induction parts as [|p parts IH]; intros acc.
  - simpl. now rewrite app_nil_r.
  - unfold grouped in *. simpl. rewrite IH, setdefault_append_concat.
    now rewrite <- app_assoc.
Qed.

Lemma sorted_groups_concat (cats : dict (list PartRecord)) :
  List.concat (dict_values (map (fun kv => (fst kv, py_sort part_lt (snd kv))) cats))
  ≡ₚ List.concat (dict_values cats).
Proof.
  induction cats as [|[k l] cats IH]; [reflexivity|].
  simpl. unfold dict_values in IH. now rewrite IH, py_sort_perm.
Qed.

Lemma group_by_category_options c parts opts :
  dict_get c (group_by_category parts) = Some opts ->
  opts <> [] /\ forall p, p ∈ opts <-> p ∈ parts /\ category p = c.
Proof.
  rewrite group_by_category_get.
  destruct (List.filter (in_category c) parts) as [|q l] eqn:E; [discriminate|].
  remember (q :: l) as ql eqn:Hql. intros [= <-]. split.
  - intros H. pose proof (py_sort_perm part_lt ql) as Hp.
    rewrite H in Hp. apply Permutation_nil_l in Hp. subst. discriminate.
  - intros p. rewrite py_sort_perm. subst ql. rewrite <- E.
    rewrite !list_elem_of_In, filter_In. unfold in_category.
    now rewrite String.eqb_eq.
Qed.

(** X2. Grouping loses no part and invents none: the option lists of the
    catalog, put together, are a rearrangement of the input. No category of
    the catalog is empty, and the options of a category are exactly the
    parts of the input with that category. *)
Theorem group_by_category_keeps_every_part (parts : list PartRecord) :
  List.concat (dict_values (group_by_category parts)) ≡ₚ parts
  /\ forall c opts, dict_get c (group_by_category parts) = Some opts ->
       opts <> [] /\ forall p, p ∈ opts <-> p ∈ parts /\ category p = c.
Proof.
  split; [|intros c opts; apply group_by_category_options].
  unfold group_by_category. rewrite sorted_groups_concat.
  fold (grouped parts []). now rewrite grouped_concat.
Qed.

(** ** What a mapping-driven session picks *)

Lemma truthy_lower s : Str.truthy (Str.lower s) = Str.truthy s.
Proof. now destruct s. Qed.

Lemma truthy_true s : Str.truthy s = true <-> s <> "".
Proof. destruct s; simpl; split; congruence. Qed.

Lemma pick_of_Some mapping cats cat o :
  pick_of mapping cats cat = Some o ->
  exists want, mapping !! cat = Some want /\ want <> ""
               /\ resolve want (default [] (dict_get cat cats)) = Some o.
Proof.
  unfold pick_of. destruct (mapping !! cat) as [want|]; [|discriminate].
  destruct (Str.truthy want) eqn:E; [|discriminate].
  intros H. exists want. split; [reflexivity|]. split; [|exact H].
  now apply truthy_true.
Qed.

(** X3. In a mapping-driven session on a catalog built from [parts], a
    pick is always one of the parts, of the category it is picked for, and
    one that the text the mapping gives for the category (a non-empty one)
    names. *)
Theorem mapping_picks_are_catalog_options
    (mapping : gmap string string) (parts : list PartRecord) (picks : Picks)
    (cat : string) (o : PartRecord) :
  apply_scenario_mapping mapping (group_by_category parts) = Ok picks ->
  dict_get cat picks = Some (Some o) ->
  o ∈ parts /\ category o = cat
  /\ exists want, mapping !! cat = Some want /\ want <> "" /\ matches want o.
Proof.
  intros Hp Hget. rewrite (apply_scenario_mapping_get _ _ _ _ Hp) in Hget.
  destruct (decide (cat ∈ dict_keys (group_by_category parts))) as [Hin|];
    [|discriminate].
  injection Hget as Hpick.
  apply pick_of_Some in Hpick as (want & Hm & Hne & Hres).
  apply dict_get_is_Some in Hin as [opts Hopts]. rewrite Hopts in Hres. simpl in Hres.
  apply resolve_Some in Hres as (pre & post & -> & Hmatch & _).
  destruct (group_by_category_options _ _ _ Hopts) as [_ Hmem].
  destruct (proj1 (Hmem o)) as [Ho Hc].
  { rewrite elem_of_app, elem_of_cons. tauto. }
  split; [exact Ho|]. split; [exact Hc|]. eauto.
Qed.

Lemma pick_of_lower mapping cats cat :
  pick_of (Str.lower <$> mapping) cats cat = pick_of mapping cats cat.
Proof.
  unfold pick_of. rewrite lookup_fmap.
  destruct (mapping !! cat) as [want|]; simpl; [|reflexivity].
  now rewrite truthy_lower, resolve_lower.
Qed.

(** X4. A mapping-driven session does not see the case of the names in
    the mapping: lower-casing every value of the mapping gives the same
    picks, for every catalog. *)
Theorem mapping_session_ignores_case
    (mapping : gmap string string) (cats : dict (list PartRecord)) :
  apply_scenario_mapping (Str.lower <$> mapping) cats
  = apply_scenario_mapping mapping cats.
Proof.
  rewrite !apply_scenario_mapping_ok. f_equal.
  apply assign_all_ext. intros k _. apply pick_of_lower.
Qed.

(** ** Preselection from the last scenario *)

Lemma preselect_hit_Some prior opts o :
  preselect_hit prior opts = Some o ->
  o ∈ opts /\ brand o = brand prior /\ model o = model prior.
Proof.
  unfold preselect_hit. intros H. apply find_some in H as [Hin Hb].
  apply andb_true_iff in Hb as [Hb Hm]. apply String.eqb_eq in Hb, Hm.
  split; [now apply list_elem_of_In | now split].
Qed.


Lemma preselect_fold_get (pre : dict PartRecord) cat (cats : dict (list PartRecord)) :
  NoDup (dict_keys cats) -> forall acc : Picks,
  dict_get cat
    (fold_left (fun acc kv =>
                  dict_set (fst kv)
                    (match dict_get (fst kv) pre with
                     | Some prefer => preselect_hit prefer (snd kv)
                     | None => None
                     end) acc) cats acc)
  = match dict_get cat cats with
    | Some opts => Some (match dict_get cat pre with
                         | Some prefer => preselect_hit prefer opts
                         | None => None
                         end)
    | None => dict_get cat acc
    end.
Proof.
  induction cats as [|[k opts] cats IH]; intros Hnd acc; [reflexivity|].
  simpl in Hnd. apply NoDup_cons in Hnd as [Hk Hnd].
  cbn [fold_left fst snd dict_get]. rewrite (IH Hnd).
  destruct (String.eqb_spec cat k) as [->|Hne].
  - apply dict_get_None in Hk. rewrite Hk. apply dict_get_set_eq.
  - destruct (dict_get cat cats); [reflexivity|].
    apply dict_get_set_ne. congruence.
Qed.

Lemma preselect_for_objs pre cats cat :
  NoDup (dict_keys cats) ->
  preselect_for (preselect_objs pre cats) cat
  = match dict_get cat pre, dict_get cat cats with
    | Some prior, Some opts => preselect_hit prior opts
    | _, _ => None
    end.
Proof.
  intros Hnd. unfold preselect_for, preselect_objs.
  destruct pre as [|e pre]; [reflexivity|]. cbv beta iota.
  rewrite (preselect_fold_get (e :: pre) cat cats Hnd).
  destruct (dict_get cat cats) as [opts|].
  - destruct (dict_get cat (e :: pre)) as [prior|]; [|reflexivity].
    destruct (preselect_hit prior opts); reflexivity.
  - destruct (dict_get cat (e :: pre)); reflexivity.
Qed.


(** ** What the chooser returns *)

Lemma pick_index_elem options idx o :
  pick_index options idx = Some (Ok o) -> o ∈ options.
Proof.
  unfold pick_index. destruct (_ && _); [|discriminate].
  destruct (nth_error options _) as [o'|] eqn:E; [|discriminate].
  intros [= <-]. apply list_elem_of_In. eapply nth_error_In, E.
Qed.

Lemma choose_from_list_elem options inp o rest :
  choose_from_list options inp = Ok (Chosen o, rest) -> o ∈ options.
Proof.
  induction inp as [|line inp IH]; simpl; [discriminate|].
  destruct (String.eqb (Str.strip line) ""); [discriminate|].
  destruct (String.eqb (Str.lower (Str.strip line)) "s"); [discriminate|].
  destruct (Str.isdigit (Str.strip line)); [|exact IH].
  destruct (Str.int_of_digits (Str.strip line)) as [idx|e]; simpl; [|discriminate].
  destruct (pick_index options idx) as [[o'|e]|] eqn:Ep; simpl;
    [|discriminate | exact IH].
  intros [= <- <-]. eapply pick_index_elem, Ep.
Qed.

Lemma pick_from_results_elem filtered inp o rest :
  pick_from_results filtered inp = Ok (Some o, rest) -> o ∈ filtered.
Proof.
  induction inp as [|line inp IH]; simpl; [discriminate|].
  destruct (String.eqb (Str.strip line) ""); [discriminate|].
  destruct (Str.isdigit (Str.strip line)); [|exact IH].
  destruct (Str.int_of_digits (Str.strip line)) as [idx|e]; simpl; [|discriminate].
  destruct (pick_index filtered idx) as [[o'|e]|] eqn:Ep; simpl;
    [|discriminate | exact IH].
  intros [= <- <-]. eapply pick_index_elem, Ep.
Qed.

Lemma search_elem line options o :
  o ∈ search line options
  <-> o ∈ options /\ occurs (Str.lower (Str.strip line)) (haystack o).
Proof.
  unfold search. rewrite !list_elem_of_In, filter_In. now rewrite contains_spec.
Qed.

Lemma search_and_choose_elem options inp o rest :
  search_and_choose options inp = Ok (Some o, rest) ->
  exists line, head inp = Some line /\ o ∈ search line options.
Proof.
  destruct inp as [|line inp]; simpl; [discriminate|].
  destruct (search line options) as [|x l] eqn:E; [discriminate|].
  intros H. apply pick_from_results_elem in H. rewrite <- E in H. eauto.
Qed.

(** X6. A search that matches nothing returns no choice after reading the
    one line of the query; an option a search returns is an option of the
    category whose text contains the query, stripped and lower-cased. *)
Theorem search_and_choose_returns_a_match
    (options : list PartRecord) (line : string) (inp : Input) :
  (search line options = [] -> search_and_choose options (line :: inp) = Ok (None, inp))
  /\ forall o rest,
       search_and_choose options (line :: inp) = Ok (Some o, rest) ->
       o ∈ options /\ occurs (Str.lower (Str.strip line)) (haystack o).
Proof.
  split.
  - intros H. simpl. now rewrite H.
  - intros o rest H. apply search_and_choose_elem in H as (l & [= <-] & H).
    now apply search_elem.
Qed.

Lemma pick_loop_result options preselect : forall fuel inp r,
  pick_loop fuel options preselect inp = Some r ->
  match r with
  | Ok (Some o, _) => o ∈ options \/ preselect = Some o
  | Ok (None, _) => preselect = None
  | Raise _ => True
  end.
Proof.
  induction fuel as [|fuel IH]; intros inp r; [discriminate|].
  simpl. destruct (choose_from_list options inp) as [[c rest]|e] eqn:Ec;
    [|intros [= <-]; exact I].
  destruct c as [| |o].
  - intros [= <-]. destruct preselect; [now right | reflexivity].
  - destruct (search_and_choose options rest) as [[[o|] rest']|e] eqn:Es.
    + intros [= <-]. left.
      apply search_and_choose_elem in Es as (line & _ & Hin).
      now apply search_elem in Hin.
    + apply IH.
    + intros [= <-]. exact I.
  - intros [= <-]. left. eapply choose_from_list_elem, Ec.
Qed.

(** X7. Whatever is typed, [pick_for_category] returns an option of the
    category or the preselected default, never anything else; it returns no
    choice only when there is no default (with a default, an empty line keeps
    it, so a category with a default cannot be skipped); it reads at least
    one line; and it raises nothing but the exceptions of a read. *)
Theorem pick_for_category_returns_option_or_default
    (cat : string) (options : list PartRecord) (preselect : option PartRecord)
    (inp : Input) :
  match pick_for_category cat options preselect inp with
  | Ok (Some o, rest) =>
      (o ∈ options \/ preselect = Some o) /\ length rest < length inp
  | Ok (None, rest) => preselect = None /\ length rest < length inp
  | Raise e => e = EOFError \/ e = ValueError
  end.
Proof.
  unfold pick_for_category.
  destruct (pick_loop_ends options preselect (S (length inp)) inp) as (r & Hr & Hlen);
    [lia|].
  rewrite Hr. apply pick_loop_result in Hr.
  destruct r as [[[o|] rest]|e]; [now split | now split | exact Hlen].
Qed.

(** ** What an interactive session picks *)

Lemma session_loop_picks (good : string -> PartRecord -> Prop) cats objs :
  (forall cat options o, dict_get cat cats = Some options ->
     o ∈ options \/ preselect_for objs cat = Some o -> good cat o) ->
  forall todo picks inp pk rest,
    (forall c o, dict_get c picks = Some (Some o) -> good c o) ->
    session_loop cats objs todo picks inp = Ok (pk, rest) ->
    forall c o, dict_get c pk = Some (Some o) -> good c o.
Proof.
  intros Hgood. induction todo as [|cat todo IH]; intros picks inp pk rest Hinv.
  - simpl. now intros [= <- <-].
  - simpl. unfold dict_item.
    destruct (dict_get cat cats) as [options|] eqn:Ecat; [|discriminate]. simpl.
    pose proof (pick_loop_result options (preselect_for objs cat)
                  (S (length inp)) inp) as Hpick.
    unfold pick_for_category.
    destruct (pick_loop (S (length inp)) options (preselect_for objs cat) inp)
      as [r|]; [|discriminate].
    specialize (Hpick r eq_refl).
    destruct r as [[choice inp']|e]; [|discriminate]. simpl.
    apply IH. intros c o.
    destruct (String.eqb_spec c cat) as [->|Hne].
    + rewrite dict_get_set_eq. intros [= ->].
      apply (Hgood cat options o Ecat). exact Hpick.
    + rewrite dict_get_set_ne by congruence. apply Hinv.
Qed.

Lemma empty_picks_get cats c o : dict_get c (empty_picks cats) <> Some (Some o).
Proof.
  unfold empty_picks.
  change (fold_left (fun d k => dict_set k None d) (sorted_categories cats) [])
    with (assign_all (fun _ : string => @None PartRecord) (sorted_categories cats) []).
  rewrite assign_all_get. destruct (decide _); discriminate.
Qed.

(** X8. In an interactive session on a catalog built from [parts], with
    the defaults cloned from the picks [pre] of a last scenario (or none),
    every pick of the finished session is one of the parts, of the category
    it is picked for. *)
Theorem interactive_picks_are_catalog_options
    (parts : list PartRecord) (pre : dict PartRecord) (inp : Input)
    (picks : Picks) (rest : Input) (cat : string) (o : PartRecord) :
  interactive_session (group_by_category parts)
    (preselect_objs pre (group_by_category parts)) inp = Ok (picks, rest) ->
  dict_get cat picks = Some (Some o) ->
  o ∈ parts /\ category o = cat.
Proof.
  unfold interactive_session. intros Hs Hget.
  eapply (session_loop_picks (fun c o => o ∈ parts /\ category o = c));
    [ | | exact Hs | exact Hget].
  - intros c options x Hopts [Hin|Hpre].
    + destruct (group_by_category_options _ _ _ Hopts) as [_ Hmem]. now apply Hmem.
    + rewrite (preselect_for_objs _ _ _ (group_by_category_keys_NoDup parts)) in Hpre.
      rewrite Hopts in Hpre.
      destruct (dict_get c pre) as [prior|]; [|discriminate].
      apply preselect_hit_Some in Hpre as [Hin _].
      destruct (group_by_category_options _ _ _ Hopts) as [_ Hmem]. now apply Hmem.
  - intros c x H. now apply empty_picks_get in H.
Qed.

(** ** Totals *)




(** ** What a save writes *)






(** X11. Saving twice under one name leaves the store that the second save
    alone would leave: the scenario and both reports are those of the
    second save. *)
Theorem save_twice_is_the_last_save
    (nm : string) (pk1 pk2 : Picks) (tot1 tot2 : float * float)
    (now1 now2 : string) (st : Store) :
  fst (save_scenario nm pk2 tot2 now2 (fst (save_scenario nm pk1 tot1 now1 st)))
  = fst (save_scenario nm pk2 tot2 now2 st).
Proof.
  rewrite !save_scenario_store. apply map_eq. intros i.
  rewrite !lookup_insert. repeat case_decide; congruence.
Qed.

Lemma to_int_not_finite x :
  Flt.is_finite x = false ->
  Flt.to_int x = Raise ValueError \/ Flt.to_int x = Raise OverflowError.
Proof.
  unfold Flt.to_int, Flt.is_finite. destruct (Prim2SF x); try discriminate; auto.
Qed.

Lemma csv_rows_stop l1 c v l2 e :
  Forall finite_weight (map snd l1) -> Flt.to_int (weight_g v) = Raise e ->
  csv_rows (l1 ++ (c, v) :: l2)%list = (map csv_cells l1, Some e).
Proof.
  intros Hfin He. induction l1 as [|[c1 v1] l1 IH]; simpl.
  - unfold csv_row. now rewrite He.
  - simpl in Hfin. apply Forall_cons in Hfin as [Hv Hfin]. unfold csv_row.
    rewrite (to_int_finite (weight_g v1) Hv). simpl. now rewrite (IH Hfin).
Qed.

(** X12. When the weight of a pick is not a finite number (the catalog may
    hold [inf] or [nan]), the save raises the exception of [int]
    ([OverflowError] or [ValueError]) while writing the flat report: the
    scenario and the tabular document are already written, and the flat
    report is left with the header and the rows of the picks before that
    one. *)
Theorem save_stops_at_a_non_finite_weight
    (nm : string) (pk : Picks) (tot : float * float) (now : string) (st : Store)
    (l1 l2 : dict PartRecord) (c : string) (v : PartRecord) :
  nonempty_items pk = (l1 ++ (c, v) :: l2)%list ->
  Forall finite_weight (map snd l1) ->
  Flt.is_finite (weight_g v) = false ->
  let r := save_scenario nm pk tot now st in
  (snd r = Raise ValueError \/ snd r = Raise OverflowError)
  /\ load_scenario nm (fst r) = Some (scenario_data nm pk tot now)
  /\ fst r !! path_join REPORT_DIR nm ".md"
     = Some (MdFile (md_report (scenario_data nm pk tot now)))
  /\ fst r !! path_join REPORT_DIR nm ".csv"
     = Some (CsvFile (csv_header :: map csv_cells l1)).
Proof.
  intros Hitems Hfin Hbad r. subst r.
  destruct (to_int_not_finite _ Hbad) as [He|He];
    rewrite save_scenario_result, save_scenario_load, save_scenario_store, Hitems,
      (csv_rows_stop l1 c v l2 _ Hfin He); simpl;
    (split; [auto|]); (split; [reflexivity|]);
    (split; [|apply lookup_insert_eq]);
    rewrite lookup_insert_ne by (apply not_eq_sym, md_path_ne_csv);
    apply lookup_insert_eq.
Qed.

Lemma save_stops_at_a_non_finite_weight_witness :
  nonempty_items picks_heavy = ([("Fork", sid)] ++ ("Frame", heavy) :: [("Wheelset", xm481)])%list
  /\ snd (save_scenario "h" picks_heavy (summarize picks_heavy) "t" ∅) = Raise OverflowError
  /\ fst (save_scenario "h" picks_heavy (summarize picks_heavy) "t" ∅)
       !! path_join REPORT_DIR "h" ".csv"
     = Some (CsvFile (csv_header :: map csv_cells [("Fork", sid)])).
Proof.
  split; [reflexivity|].
  destruct (save_stops_at_a_non_finite_weight "h" picks_heavy (summarize picks_heavy)
              "t" ∅ [("Fork", sid)] [("Wheelset", xm481)] "Frame" heavy)
    as (_ & _ & _ & Hcsv).
  - reflexivity.
  - repeat constructor.
  - reflexivity.
  - split; [vm_compute; reflexivity | exact Hcsv].
Defined.

(** ** What [main] reads and writes *)

(** X13. With a [--scenario] file the run is not interactive: its result
    does not depend on the standard input, nor on the last scenario saved
    (the flag [--clone-last] has no effect), and without [--save] the store
    is left as it was. *)
Theorem main_from_file_reads_no_input
    (args : Args) (rows : list CsvRow) (last : option Scenario) (now : string)
    (inp : Input) (st : Store) (nm : string) (mapping : gmap string string) :
  arg_scenario args = Some (nm, mapping) ->
  main args rows last now inp st = main args rows None now [] st
  /\ (flag_save args = false -> fst (main args rows last now inp st) = st).
Proof.
  intros Hs. unfold main. rewrite Hs.
  destruct (load_parts rows) as [[|p parts]|e]; [now split.. | | now split].
  destruct (apply_scenario_mapping mapping _) as [pk|e]; [|now split].
  split; [reflexivity|]. now intros ->.
Qed.

Lemma main_from_file_reads_no_input_witness :
  main file_args catalog_rows (Some (scenario_data "old" picks_pike (0%float, 0%float) "t"))
       "now" ["1"; "y"] store_with_build
  = main file_args catalog_rows None "now" [] store_with_build
  /\ fst (main file_args catalog_rows
            (Some (scenario_data "old" picks_pike (0%float, 0%float) "t"))
            "now" ["1"; "y"] store_with_build) = store_with_build.
Proof.
  destruct (main_from_file_reads_no_input file_args catalog_rows
              (Some (scenario_data "old" picks_pike (0%float, 0%float) "t"))
              "now" ["1"; "y"] store_with_build "light" scenario_a eq_refl)
    as [H1 H2].
  split; [exact H1 | exact (H2 eq_refl)].
Defined.

(** X14. A run of [main] changes the store only by one save: the store it
    leaves is the store it found, or the one that saving some picks under
    some name, with the totals of those picks, makes of it. *)
Theorem main_writes_only_by_saving
    (args : Args) (rows : list CsvRow) (last : option Scenario) (now : string)
    (inp : Input) (st : Store) :
  fst (main args rows last now inp st) = st
  \/ exists nm pk,
       fst (main args rows last now inp st)
       = fst (save_scenario nm pk (summarize pk) now st).
Proof.
  unfold main.
  destruct (load_parts rows) as [[|p parts]|e]; [now left | | now left].
  destruct (arg_scenario args) as [[nm mapping]|].
  - destruct (apply_scenario_mapping mapping _) as [pk|e]; [|now left].
    destruct (flag_save args); [|now left].
    right. exists nm, pk. fold (summarize pk).
    now destruct (save_scenario nm pk (summarize pk) now st) as [st' [path|e]].
  - destruct (scenario_name args inp) as [[nm inp1]|e]; [|now left].
    destruct (interactive_session _ _ inp1) as [[pk inp2]|e]; [|now left].
    destruct (wants_save args inp2) as [[|]|e]; [|now left | now left].
    right. exists nm, pk.
    now destruct (save_scenario nm pk (summarize pk) now st) as [st' [path|e]].
Qed.

(** ** The line-based mapping document *)

Lemma lstrip_by_suffix p s : exists a, s = a ++ Str.lstrip_by p s.
Proof.
  induction s as [|c s [a IH]]; simpl; [now exists ""|].
  destruct (p c); [|now exists ""].
  exists (String c a). rewrite append_String. now rewrite <- IH.
Qed.

Lemma append_empty_r s : s ++ "" = s.
Proof. induction s as [|c s IH]; [reflexivity|]. now rewrite append_String, IH. Qed.

Lemma append_assoc a b c : (a ++ b) ++ c = a ++ (b ++ c).
Proof.
  induction a as [|x a IH]; [reflexivity|]. now rewrite !append_String, IH.
Qed.

Lemma rstrip_by_prefix p s : exists b, s = Str.rstrip_by p s ++ b.
Proof.
  induction s as [|c s [b IH]]; simpl; [now exists ""|].
  destruct (Str.rstrip_by p s) as [|d r] eqn:E.
  - destruct (p c).
    + exists (String c s). reflexivity.
    + exists s. rewrite append_String. now rewrite append_empty.
  - exists b. rewrite append_String. now rewrite <- IH.
Qed.

Lemma occurs_strip q s : occurs q (Str.strip s) -> occurs q s.
Proof.
  intros (pre & post & H). unfold Str.strip in H.
  destruct (lstrip_by_suffix Str.isspace s) as [a Ha].
  destruct (rstrip_by_prefix Str.isspace (Str.lstrip_by Str.isspace s)) as [b Hb].
  exists (a ++ pre), (post ++ b).
  rewrite Ha at 1. rewrite Hb at 1. rewrite H.
  now rewrite !append_assoc.
Qed.

Lemma split_colon_None s : ~ occurs ":" s -> split_colon s = None.
Proof.
  induction s as [|c s IH]; intros Hn; [reflexivity|]. simpl.
  destruct (Ascii.eqb_spec c ":") as [->|Hc].
  - exfalso. apply Hn. exists "", s. reflexivity.
  - rewrite IH; [reflexivity|].
    intros (pre & post & ->). apply Hn. exists (String c pre), post.
    now rewrite append_String.
Qed.

Lemma split_colon_first k v : ~ occurs ":" k -> split_colon (k ++ ":" ++ v) = Some (k, v).
Proof.
  induction k as [|c k IH]; intros Hn; [reflexivity|].
  rewrite append_String. simpl.
  destruct (Ascii.eqb_spec c ":") as [->|Hc].
  - exfalso. apply Hn. exists "", k. reflexivity.
  - rewrite IH; [reflexivity|].
    intros (pre & post & ->). apply Hn. exists (String c pre), post.
    now rewrite append_String.
Qed.

Lemma split_colon_Some s k v :
  split_colon s = Some (k, v) -> s = k ++ ":" ++ v /\ ~ occurs ":" k.
Proof.
  revert k; induction s as [|c s IH]; intros k; [discriminate|]. simpl.
  destruct (Ascii.eqb_spec c ":") as [->|Hc].
  - intros [= <- <-]. split; [reflexivity|].
    intros (pre & post & H). destruct pre; discriminate.
  - destruct (split_colon s) as [[k' v']|]; [|discriminate].
    intros [= <- <-]. destruct (IH k' eq_refl) as [-> Hn]. split.
    + now rewrite append_String.
    + intros (pre & post & H). destruct pre as [|x pre].
      * rewrite append_empty in H. injection H as H _. congruence.
      * rewrite append_String in H. injection H as _ H.
        apply Hn. now exists pre, post.
Qed.

(** X15. Blank lines, lines whose first character after white space is
    [#], and lines without a colon add nothing to the mapping read from the
    file: the mapping is the one of the file without the line. *)
Theorem yaml_skips_blank_comment_and_plain_lines
    (lines1 lines2 : list string) (line : string) :
  Str.strip line = "" \/ is_comment (Str.strip line) = true \/ ~ occurs ":" line ->
  parse_simple_yaml (lines1 ++ line :: lines2)%list
  = parse_simple_yaml (lines1 ++ lines2)%list.
Proof.
  intros H. unfold parse_simple_yaml. rewrite !fold_left_app. cbn [fold_left].
  f_equal. unfold yaml_line.
  destruct H as [->|[->|H]]; [reflexivity | now rewrite orb_true_r |].
  destruct (_ || _); [reflexivity|].
  rewrite split_colon_None; [reflexivity|].
  intros Ho. apply H. now apply occurs_strip.
Qed.

Lemma yaml_skips_blank_comment_and_plain_lines_witness :
  parse_simple_yaml ["Fork: SID"; "  # Fork: Pike"; "Wheelset: xm481"]
  = parse_simple_yaml ["Fork: SID"; "Wheelset: xm481"]
  /\ parse_simple_yaml ["Fork: SID"; "Fork Pike"] = parse_simple_yaml ["Fork: SID"].
Proof.
  split.
  - apply (yaml_skips_blank_comment_and_plain_lines ["Fork: SID"] ["Wheelset: xm481"]
             "  # Fork: Pike").
    right. left. reflexivity.
  - apply (yaml_skips_blank_comment_and_plain_lines ["Fork: SID"] [] "Fork Pike").
    right. right. rewrite <- contains_spec. vm_compute. discriminate.
Defined.

(** X16. A line that, stripped, is a key, a colon and a value (the key
    being the text before the first colon) and does not begin with [#] sets
    the key, stripped of white space, to the value, stripped of white space
    and then of quotes at both ends; a later line for the same key replaces
    the value of an earlier one. *)
Theorem yaml_entry_sets_its_key
    (lines : list string) (line k v : string) :
  Str.strip line = k ++ ":" ++ v -> ~ occurs ":" k -> is_comment k = false ->
  parse_simple_yaml (lines ++ [line])%list
  = <[Str.strip k := unquote (Str.strip v)]> (parse_simple_yaml lines)
  /\ parse_simple_yaml (lines ++ [line])%list !! Str.strip k
     = Some (unquote (Str.strip v)).
Proof.
  intros Hline Hk Hc.
  assert (H : parse_simple_yaml (lines ++ [line])%list
              = <[Str.strip k := unquote (Str.strip v)]> (parse_simple_yaml lines)).
  { unfold parse_simple_yaml. rewrite fold_left_app. cbn [fold_left].
    unfold yaml_line at 1. rewrite Hline, (split_colon_first k v Hk).
    replace (negb (Str.truthy (k ++ ":" ++ v)) || is_comment (k ++ ":" ++ v))
      with false; [reflexivity|].
    destruct k as [|c k]; [reflexivity|]. rewrite append_String. exact (eq_sym Hc). }
  split; [exact H|]. rewrite H. apply lookup_insert_eq.
Qed.

Lemma yaml_entry_sets_its_key_witness :
  parse_simple_yaml yaml_lines !! "Fork" = Some "Pike"
  /\ parse_simple_yaml yaml_lines !! "Wheelset" = Some "xm481"
  /\ parse_simple_yaml (firstn 3 yaml_lines) !! "Fork" = Some "SID".
Proof.
  split; [|split; vm_compute; reflexivity].
  apply (yaml_entry_sets_its_key (firstn 5 yaml_lines) "  Fork: Pike  " "Fork" " Pike").
  - reflexivity.
  - rewrite <- contains_spec. vm_compute. discriminate.
  - reflexivity.
Defined.

Lemma lstrip_by_head p s c r : Str.lstrip_by p s = String c r -> p c = false.
Proof.
  induction s as [|a s IH]; simpl; [discriminate|].
  destruct (p a) eqn:E; [exact IH|]. now intros [= <- _].
Qed.

Lemma rstrip_by_head p s c r :
  Str.rstrip_by p s = String c r -> exists s', s = String c s'.
Proof.
  destruct s as [|a s]; simpl; [discriminate|].
  destruct (Str.rstrip_by p s); [destruct (p a)|]; intros [= <- _]; eauto.
Qed.

Lemma append_nonempty r c : r ++ String c "" <> "".
Proof. destruct r; [|rewrite append_String]; discriminate. Qed.

Lemma rstrip_by_last p s : forall r c,
  Str.rstrip_by p s = r ++ String c "" -> p c = false.
Proof.
  induction s as [|a s IH]; intros r c; simpl.
  - intros H. symmetry in H. now apply append_nonempty in H.
  - destruct (Str.rstrip_by p s) as [|d t] eqn:E.
    + destruct (p a) eqn:Ea.
      * intros H. symmetry in H. now apply append_nonempty in H.
      * destruct r as [|x r]; [now intros [= <-]|].
        rewrite append_String. intros [= _ H]. symmetry in H.
        now apply append_nonempty in H.
    + destruct r as [|x r].
      * rewrite append_empty. discriminate.
      * rewrite append_String. intros [= _ H]. now apply (IH r c).
Qed.

Lemma strip_by_trimmed p s : trimmed p (Str.rstrip_by p (Str.lstrip_by p s)).
Proof.
  split.
  - intros c r H. apply rstrip_by_head in H as [s' H].
    now apply lstrip_by_head in H.
  - intros r c H. now apply rstrip_by_last in H.
Qed.

Lemma yaml_line_keeps_form (P : string -> string -> Prop) mapping line :
  (forall k v, ~ occurs ":" k -> P (Str.strip k) (unquote (Str.strip v))) ->
  (forall k v, mapping !! k = Some v -> P k v) ->
  forall k v, yaml_line mapping line !! k = Some v -> P k v.
Proof.
  intros HP Hm k v. unfold yaml_line.
  destruct (_ || _); [apply Hm|].
  destruct (split_colon (Str.strip line)) as [[k0 v0]|] eqn:E; [|apply Hm].
  apply split_colon_Some in E as [_ Hk0].
  destruct (decide (Str.strip k0 = k)) as [<-|Hne].
  - rewrite lookup_insert_eq. intros [= <-]. now apply HP.
  - rewrite lookup_insert_ne by assumption. apply Hm.
Qed.

Lemma parse_keeps_form (P : string -> string -> Prop) lines :
  (forall k v, ~ occurs ":" k -> P (Str.strip k) (unquote (Str.strip v))) ->
  forall mapping, (forall k v, mapping !! k = Some v -> P k v) ->
  forall k v, fold_left yaml_line lines mapping !! k = Some v -> P k v.
Proof.
  intros HP. induction lines as [|line lines IH]; intros mapping Hm; [exact Hm|].
  simpl. apply IH. now apply yaml_line_keeps_form.
Qed.

(** X17. Whatever the file holds, a key of the mapping read from it has no
    colon and no white space at either end, and a value has no quote at
    either end. *)
Theorem yaml_keys_and_values_are_trimmed
    (lines : list string) (k v : string) :
  parse_simple_yaml lines !! k = Some v ->
  trimmed Str.isspace k /\ ~ occurs ":" k /\ trimmed is_quote v.
Proof.
  apply (parse_keeps_form
           (fun k v => trimmed Str.isspace k /\ ~ occurs ":" k /\ trimmed is_quote v)).
  - intros k0 v0 Hk0. split; [apply strip_by_trimmed|]. split.
    + intros H. apply Hk0. now apply occurs_strip.
    + apply strip_by_trimmed.
  - intros k0 v0 H. now rewrite lookup_empty in H.
Qed.

Lemma yaml_keys_and_values_are_trimmed_witness :
  parse_simple_yaml yaml_lines !! "Fork" = Some "Pike"
  /\ trimmed Str.isspace "Fork" /\ ~ occurs ":" "Fork" /\ trimmed is_quote "Pike".
Proof.
  assert (H : parse_simple_yaml yaml_lines !! "Fork" = Some "Pike")
    by (vm_compute; reflexivity).
  split; [exact H|].
  exact (yaml_keys_and_values_are_trimmed yaml_lines "Fork" "Pike" H).
Defined.

(** ** The last scenario saved *)

Lemma last_filter {A} (p : A -> bool) (l : list A) x :
  last l = Some x -> p x = true -> last (List.filter p l) = Some x.
Proof.
  induction l as [|a l IH]; [discriminate|].
  rewrite last_cons. destruct (last l) as [y|] eqn:E.
  - intros [= ->] Hp. simpl. destruct (p a); [|now apply IH].
    rewrite last_cons. now rewrite IH.
  - intros [= ->] Hp. apply last_None in E. subst l. simpl. now rewrite Hp.
Qed.

Lemma sorted_last_is_max {A} (R : A -> A -> Prop) (l : list A) x :
  StronglySorted R l -> last l = Some x -> forall y, y ∈ l -> y = x \/ R y x.
Proof.
  induction 1 as [|a l Hs IH Hall]; [discriminate|].
  rewrite last_cons. destruct (last l) as [z|] eqn:E.
  - intros [= ->] y Hy. apply elem_of_cons in Hy as [->|Hy]; [|now apply IH].
    right. rewrite Forall_forall in Hall. apply Hall.
    now apply last_Some_elem_of.
  - intros [= ->] y Hy. apply last_None in E. subst l.
    apply list_elem_of_singleton in Hy. now left.
Qed.

Lemma mtime_lt_asym a b : mtime_lt a b = true -> mtime_lt b a = false.
Proof. unfold mtime_lt. rewrite Z.ltb_lt, Z.ltb_ge. lia. Qed.

Lemma mtime_le_trans a b c :
  mtime_lt b a = false -> mtime_lt c b = false -> mtime_lt c a = false.
Proof. unfold mtime_lt. rewrite !Z.ltb_ge. lia. Qed.

Lemma filter_none {A} (p : A -> bool) (l : list A) :
  Forall (fun x => p x = false) l -> List.filter p l = [].
Proof.
  induction 1 as [|x l Hx _ IH]; [reflexivity|]. simpl. now rewrite Hx.
Qed.

Lemma load_last_scenario_latest l1 t sc l2 :
  Forall (fun f => (fst f <= t)%Z) l1 -> Forall (fun f => (fst f < t)%Z) l2 ->
  load_last_scenario (l1 ++ (t, sc) :: l2)%list = Some sc.
Proof.
  intros H1 H2. unfold load_last_scenario.
  set (files := (l1 ++ (t, sc) :: l2)%list).
  pose proof (py_sort_perm mtime_lt files) as Hperm.
  pose proof (py_sort_sorted mtime_lt mtime_lt_asym mtime_le_trans files) as Hsorted.
  destruct (last (py_sort mtime_lt files)) as [x|] eqn:Elast.
  2:{ apply last_None in Elast. rewrite Elast in Hperm.
      apply Permutation_nil_l in Hperm. subst files.
      now destruct l1. }
  assert (Hx : x ∈ files) by (rewrite <- Hperm; now apply last_Some_elem_of).
  assert (Hle : (fst x <= t)%Z).
  { subst files. apply elem_of_app in Hx as [Hx|Hx].
    - rewrite Forall_forall in H1. now apply H1.
    - apply elem_of_cons in Hx as [->|Hx]; [simpl; lia|].
      rewrite Forall_forall in H2. specialize (H2 _ Hx). lia. }
  assert (Hge : (t <= fst x)%Z).
  { destruct (sorted_last_is_max _ _ _ Hsorted Elast (t, sc)) as [<-|H].
    - rewrite Hperm. subst files. rewrite elem_of_app, elem_of_cons. tauto.
    - simpl. lia.
    - unfold mtime_lt in H. simpl in H. apply Z.ltb_ge in H. lia. }
  pose proof (last_filter (fun f => (fst f =? t)%Z) _ x Elast) as Hf.
  rewrite py_sort_filter in Hf.
  2:{ intros a b Ha Hb. apply Z.eqb_eq in Ha, Hb. unfold mtime_lt.
      apply Z.ltb_ge. lia. }
  subst files. rewrite List.filter_app in Hf. simpl in Hf.
  rewrite Z.eqb_refl in Hf.
  rewrite (filter_none _ l2) in Hf.
  2:{ eapply Forall_impl; [exact H2|]. intros f Hlt. simpl in Hlt.
      apply Z.eqb_neq. lia. }
  rewrite last_snoc in Hf.
  assert (Hxe : Some (t, sc) = Some x) by (apply Hf, Z.eqb_eq; lia).
  now injection Hxe as <-.
Qed.

(** X18. [load_last_scenario] returns nothing exactly when the directory
    holds no scenario file. Otherwise it returns the document of a file with
    the latest modification time, and among files with that same time the
    one that comes last in the listing of the directory. *)
Theorem load_last_scenario_returns_the_latest (files : list scenario_file) :
  (load_last_scenario files = None <-> files = [])
  /\ forall l1 t sc l2,
       files = (l1 ++ (t, sc) :: l2)%list ->
       Forall (fun f => (fst f <= t)%Z) l1 -> Forall (fun f => (fst f < t)%Z) l2 ->
       load_last_scenario files = Some sc.
Proof.
  split.
  - split; [|now intros ->]. unfold load_last_scenario.
    destruct (last (py_sort mtime_lt files)) as [x|] eqn:E; [discriminate|].
    intros _. apply last_None in E.
    pose proof (py_sort_perm mtime_lt files) as Hperm. rewrite E in Hperm.
    now apply Permutation_nil_l in Hperm.
  - intros l1 t sc l2 -> H1 H2. now apply load_last_scenario_latest.
Qed.

Lemma load_last_scenario_returns_the_latest_witness :
  load_last_scenario [(5%Z, scenario_named "a"); (7%Z, scenario_named "b");
                      (7%Z, scenario_named "c"); (3%Z, scenario_named "d")]
  = Some (scenario_named "c").
Proof.
  apply (proj2 (load_last_scenario_returns_the_latest _)
           [(5%Z, scenario_named "a"); (7%Z, scenario_named "b")] 7%Z
           (scenario_named "c") [(3%Z, scenario_named "d")] eq_refl).
  - repeat constructor; simpl; lia.
  - repeat constructor; simpl; lia.
Defined.

(** ** The entry of a new part *)


(** ** Keeping every default *)

Lemma session_loop_all_kept cats objs : forall todo picks,
  (forall c, c ∈ todo -> c ∈ dict_keys cats) ->
  session_loop cats objs todo picks (repeat "" (length todo))
  = Ok (assign_all (preselect_for objs) todo picks, []).
Proof.
  induction todo as [|cat todo IH]; intros picks Hcats; [reflexivity|].
  cbn [length repeat session_loop]. unfold dict_item.
  destruct (dict_get_is_Some cat cats) as [options ->]; [apply Hcats; left|].
  cbn [bind]. rewrite pick_for_category_skip. cbn [bind fst snd].
  rewrite IH; [reflexivity|]. intros c Hc. apply Hcats. now right.
Qed.

(** X20. Answering every category of an interactive session with an empty
    line ends the session with, for each category, the default cloned from
    the last scenario, and no choice where there is no default: the choices
    of the last scenario that the catalog still holds are picked again. *)
Theorem keeping_every_default_repeats_the_last_scenario
    (parts : list PartRecord) (pre : dict PartRecord) :
  let cats := group_by_category parts in
  let objs := preselect_objs pre cats in
  exists picks,
    interactive_session cats objs (repeat "" (length (sorted_categories cats)))
    = Ok (picks, [])
    /\ forall cat, cat ∈ dict_keys cats ->
         dict_get cat picks
         = Some (match dict_get cat pre, dict_get cat cats with
                 | Some prior, Some opts => preselect_hit prior opts
                 | _, _ => None
                 end).
Proof.
  intros cats objs. unfold interactive_session.
  rewrite session_loop_all_kept by apply sorted_categories_elem.
  eexists. split; [reflexivity|]. intros cat Hcat.
  rewrite assign_all_get, decide_True by now apply sorted_categories_elem.
  subst objs. now rewrite (preselect_for_objs _ _ _ (group_by_category_keys_NoDup parts)).
Qed.

(** ** Search and the case of the query *)

Lemma isspace_lower_char c : Str.isspace (Str.lower_char c) = Str.isspace c.
Proof. destruct c as [[] [] [] [] [] [] [] []]; reflexivity. Qed.

Lemma lstrip_lower s :
  Str.lstrip_by Str.isspace (Str.lower s) = Str.lower (Str.lstrip_by Str.isspace s).
Proof.
  induction s as [|c s IH]; [reflexivity|]. simpl.
  rewrite isspace_lower_char. now destruct (Str.isspace c).
Qed.

Lemma rstrip_lower s :
  Str.rstrip_by Str.isspace (Str.lower s) = Str.lower (Str.rstrip_by Str.isspace s).
Proof.
  induction s as [|c s IH]; [reflexivity|]. simpl.
  rewrite IH, isspace_lower_char.
  destruct (Str.rstrip_by Str.isspace s); simpl; [|reflexivity].
  now destruct (Str.isspace c).
Qed.

Lemma strip_lower s : Str.strip (Str.lower s) = Str.lower (Str.strip s).
Proof. unfold Str.strip. now rewrite lstrip_lower, rstrip_lower. Qed.

(** X21. The search does not see the case of the query: the lower-cased
    line finds the same options, in the same order. *)
Theorem search_ignores_the_case_of_the_query (line : string) (options : list PartRecord) :
  search (Str.lower line) options = search line options.
Proof. unfold search. now rewrite strip_lower, lower_idem. Qed.

(** ** The order of the categories *)

Lemma str_le_antisym a b : str_le a b -> str_le b a -> a = b.
Proof.
  unfold str_le. rewrite (String.compare_antisym a b).
  destruct (String.compare b a) eqn:E; simpl; try congruence.
  intros _ _. symmetry. now apply String.compare_eq_iff.
Qed.

(** X22. The order in which the categories are processed depends only on
    which categories the parts have, not on the order or the number of the
    rows: two lists of parts with the same category values give the same
    sequence of categories. *)
Theorem category_order_ignores_row_order (parts parts' : list PartRecord) :
  (forall c, c ∈ map category parts <-> c ∈ map category parts') ->
  sorted_categories (group_by_category parts)
  = sorted_categories (group_by_category parts').
Proof.
  intros Hsame.
  apply (@StronglySorted_unique _ str_le (fun a b => str_le_antisym a b));
    [apply sorted_categories_sorted | apply sorted_categories_sorted |].
  apply NoDup_Permutation.
  - apply sorted_categories_NoDup, group_by_category_keys_NoDup.
  - apply sorted_categories_NoDup, group_by_category_keys_NoDup.
  - intros c. rewrite !sorted_categories_elem, !group_by_category_keys_elem.
    specialize (Hsame c). rewrite !list_elem_of_fmap in Hsame.
    split; intros (p & Hp & Hc).
    + destruct (proj1 Hsame) as (q & Hq & Hin); [eauto|]. eauto.
    + destruct (proj2 Hsame) as (q & Hq & Hin); [eauto|]. eauto.
Qed.

Lemma category_order_ignores_row_order_witness :
  sorted_categories (group_by_category [xm481; sid; pike])
  = sorted_categories (group_by_category [sid_again; xm481]).
Proof.
  apply (category_order_ignores_row_order [xm481; sid; pike] [sid_again; xm481]).
  intros c. rewrite !list_elem_of_In. simpl. tauto.
Defined.

(** ** The properties with a premise, at concrete inputs *)

Lemma mapping_picks_are_catalog_options_witness :
  apply_scenario_mapping scenario_a (group_by_category [xm481; sid]) = Ok picks_a
  /\ dict_get "Fork" picks_a = Some (Some sid)
  /\ sid ∈ [xm481; sid] /\ category sid = "Fork"
  /\ exists want, scenario_a !! "Fork" = Some want /\ want <> "" /\ matches want sid.
Proof.
  assert (H1 : apply_scenario_mapping scenario_a (group_by_category [xm481; sid])
               = Ok picks_a) by (vm_compute; reflexivity).
  assert (H2 : dict_get "Fork" picks_a = Some (Some sid)) by reflexivity.
  split; [exact H1|]. split; [exact H2|].
  exact (mapping_picks_are_catalog_options scenario_a [xm481; sid] picks_a "Fork" sid H1 H2).
Defined.

Lemma interactive_picks_are_catalog_options_witness :
  interactive_session (group_by_category [xm481; sid])
    (preselect_objs [] (group_by_category [xm481; sid])) ["1"; "s"; "dt"; "1"; "rest"]
  = Ok (picks_a, ["rest"])
  /\ dict_get "Wheelset" picks_a = Some (Some xm481)
  /\ xm481 ∈ [xm481; sid] /\ category xm481 = "Wheelset".
Proof.
  assert (H1 : interactive_session (group_by_category [xm481; sid])
                 (preselect_objs [] (group_by_category [xm481; sid]))
                 ["1"; "s"; "dt"; "1"; "rest"]
               = Ok (picks_a, ["rest"])) by (vm_compute; reflexivity).
  assert (H2 : dict_get "Wheelset" picks_a = Some (Some xm481)) by reflexivity.
  split; [exact H1|]. split; [exact H2|].
  exact (interactive_picks_are_catalog_options [xm481; sid] [] _ picks_a ["rest"]
           "Wheelset" xm481 H1 H2).
Defined.
